(** * Identifier derivation in the Walrus / Seal example scripts

    A shallow embedding of the TypeScript helper [computeKeyId] (three
    copies: [upload_walrus.ts], [download_walrus.ts], [decrypt_sui_data.ts]),
    of the inline policy-bound derivation of the allowlist upload script, of
    the identifier extraction in [downloadAndDecrypt] and of
    [downloadBlobFromWalrus] in [down_encrypted_key.ts].

    JavaScript typed arrays are mutable objects: they live in a store and
    are passed by reference.  Exceptions are results of an error monad that
    threads the store. *)

From Stdlib Require Import NArith QArith Strings.Byte Ascii.
From stdpp Require Import base list strings pretty.

(** ** JavaScript strings *)

(** Strings are sequences of code units; the scripts only inspect the
    ASCII characters ['0'], ['x'] and hex digits. *)
Module JsString.

(** [s.startsWith(p)] *)
Fixpoint startsWith (s p : string) {struct p} : bool :=
  match p with
  | EmptyString => true
  | String c p' =>
      match s with
      | EmptyString => false
      | String d s' => if Ascii.eqb c d then startsWith s' p' else false
      end
  end.

(** [s.slice(k)] for a non-negative [k]: the string without its first
    [k] code units (empty when the string is shorter). *)
Fixpoint slice (s : string) (k : nat) {struct k} : string :=
  match k with
  | O => s
  | S k' =>
      match s with
      | EmptyString => EmptyString
      | String _ s' => slice s' k'
      end
  end.

End JsString.

(** ** Typed arrays in a store *)

(** The contents of a [Uint8Array]. *)
Abbreviation bytes := (list byte).

(** A reference to a [Uint8Array] object. *)
Abbreviation ref := nat.

(** The store of typed arrays: the object at reference [r] is [h !! r];
    allocation appends. *)
Abbreviation heap := (list bytes).

(** What a script step can throw.  [MalformedHexInput] is the [Error]
    raised by [fromHex]; [RangeError] is raised by [TypedArray.set] when the
    source does not fit; [InvalidEncryptedObjectFormat] is raised by
    [EncryptedObject.parse]; [InvalidReference] marks a reference that is
    not in the store, which no well-typed caller can supply. *)
Inductive exn : Type :=
| MalformedHexInput
| RangeError
| InvalidEncryptedObjectFormat
| InvalidReference.

Inductive result (A : Type) : Type :=
| Ok (a : A)
| Throw (e : exn).
Arguments Ok {A} a.
Arguments Throw {A} e.

(** A computation reads and updates the store and returns or throws. *)
Definition M (A : Type) : Type := heap → result A * heap.

Global Instance M_ret : MRet M := λ A a h, (Ok a, h).

Global Instance M_bind : MBind M := λ A B k m h,
  match m h with
  | (Ok a, h') => k a h'
  | (Throw e, h') => (Throw e, h')
  end.

Definition throw {A} (e : exn) : M A := λ h, (Throw e, h).

Module TypedArray.

(** Allocate a fresh array object holding [bs]. *)
Definition alloc (bs : bytes) : M ref :=
  λ h, (Ok (length h), h ++ [bs]).

(** The contents of the object at [r]. *)
Definition read (r : ref) : M bytes :=
  λ h,
    match h !! r with
    | Some bs => (Ok bs, h)
    | None => (Throw InvalidReference, h)
    end.

(** Replace the contents of the object at [r]. *)
Definition write (r : ref) (bs : bytes) : M unit :=
  λ h,
    match h !! r with
    | Some _ => (Ok tt, <[r:=bs]> h)
    | None => (Throw InvalidReference, h)
    end.

(** [new Uint8Array(n)]: [n] zero bytes. *)
Definition new (n : nat) : M ref := alloc (replicate n x00).

(** [a.length] *)
Definition len (a : ref) : M nat :=
  bs ← read a; mret (length bs).

(** [target.set(source, offset)]: copies every element of [source] into
    [target] starting at [offset]; throws [RangeError] when
    [offset + source.length > target.length]. *)
Definition set (target source : ref) (offset : nat) : M unit :=
  src ← read source;
  tgt ← read target;
  if decide (offset + length src ≤ length tgt)%nat
  then write target (list_inserts offset src tgt)
  else throw RangeError.

(** [ToUint8] of a JavaScript number that is a non-negative integer. *)
Definition toUint8 (x : N) : byte :=
  match Byte.of_N (x mod 256) with
  | Some b => b
  | None => x00
  end.

(** [[...a]]: the elements of [a] as an array of numbers. *)
Definition spread (a : ref) : M (list N) :=
  bs ← read a; mret (Byte.to_N <$> bs).

(** [new Uint8Array(xs)] for an array of numbers [xs]. *)
Definition from (xs : list N) : M ref := alloc (toUint8 <$> xs).

End TypedArray.

(** ** The imported hex codec *)

(** [fromHex] and [toHex] are imported from [@mysten/sui/utils]; the
    scripts are generic in them.  [fromHex s = None] stands for the call
    throwing. *)
Class SuiUtils : Type := {
  fromHex : string → option bytes;
  toHex : bytes → string;
}.

(** A call [fromHex(s)] from a script: the decoded bytes become a fresh
    array object. *)
Definition callFromHex `{SuiUtils} (s : string) : M ref :=
  match fromHex s with
  | Some bs => TypedArray.alloc bs
  | None => throw MalformedHexInput
  end.

(** A call [toHex(a)] on an array object. *)
Definition callToHex `{SuiUtils} (a : ref) : M string :=
  bs ← TypedArray.read a; mret (toHex bs).

(** The characters of a hex string. *)
Module Hex.

(** The value of a hex digit, of either case. *)
Definition digitValue (c : Ascii.ascii) : option N :=
  let n := Ascii.N_of_ascii c in
  if ((48 <=? n) && (n <=? 57))%N then Some (n - 48)%N
  else if ((97 <=? n) && (n <=? 102))%N then Some (n - 87)%N
  else if ((65 <=? n) && (n <=? 70))%N then Some (n - 55)%N
  else None.

Definition isHexDigit (c : Ascii.ascii) : bool :=
  match digitValue c with Some _ => true | None => false end.

Fixpoint isHexString (s : string) : bool :=
  match s with
  | EmptyString => true
  | String c s' => isHexDigit c && isHexString s'
  end.

(** Well-formed textual input: an even number of hex digits. *)
Definition wellFormed (s : string) : bool :=
  Nat.even (String.length s) && isHexString s.

End Hex.

(** ** upload_walrus.ts *)

Module UploadWalrus.

Definition computeKeyId `{SuiUtils} (sender : string) (nonce : ref) : M ref :=
  let senderHex :=
    if JsString.startsWith sender "0x" then JsString.slice sender 2 else sender in
  senderBytes ← callFromHex senderHex;
  senderLen ← TypedArray.len senderBytes;
  nonceLen ← TypedArray.len nonce;
  keyId ← TypedArray.new (senderLen + nonceLen);
  TypedArray.set keyId senderBytes 0 ;;
  TypedArray.set keyId nonce senderLen ;;
  mret keyId.

(** [main], lines 165-166: the identifier of the requester's address
    and the fresh nonce, and its transport encoding. *)
Definition main_encryptionId `{SuiUtils} (address : string) (nonce : ref) : M (ref * string) :=
  keyId ← computeKeyId address nonce;
  encryptionId ← callToHex keyId;
  mret (keyId, encryptionId).

End UploadWalrus.

(** ** decrypt_sui_data.ts *)

Module DecryptSuiData.

Definition computeKeyId `{SuiUtils} (sender : string) (nonce : ref) : M ref :=
  let senderHex :=
    if JsString.startsWith sender "0x" then JsString.slice sender 2 else sender in
  senderBytes ← callFromHex senderHex;
  senderLen ← TypedArray.len senderBytes;
  nonceLen ← TypedArray.len nonce;
  keyId ← TypedArray.new (senderLen + nonceLen);
  TypedArray.set keyId senderBytes 0 ;;
  TypedArray.set keyId nonce senderLen ;;
  mret keyId.

End DecryptSuiData.

(** ** The allowlist upload script *)

Module AllowlistUpload.

(** [main], lines 336 and 338: the policy-bound identifier.  [nonce] is
    the array created in between, on line 337. *)
Definition main_keyId `{SuiUtils} (allowlistId : string) (nonce : ref) : M ref :=
  policyObjectBytes ←
    callFromHex (if JsString.startsWith allowlistId "0x"
                 then JsString.slice allowlistId 2 else allowlistId);
  xs ← TypedArray.spread policyObjectBytes;
  ys ← TypedArray.spread nonce;
  TypedArray.from (xs ++ ys).

Definition main_encryptionId `{SuiUtils} (allowlistId : string) (nonce : ref) : M (ref * string) :=
  keyId ← main_keyId allowlistId nonce;
  encryptionId ← callToHex keyId;
  mret (keyId, encryptionId).

End AllowlistUpload.

(** ** The Seal SDK *)

(** The [id] field of a parsed [EncryptedObject]; [downloadAndDecrypt]
    accepts a hex string as well as raw bytes. *)
Inductive IdField : Type :=
| IdString (s : string)
| IdBytes (b : bytes).

(** The parsed object, opaque but for its [id]. *)
Record EncryptedObject : Type := {
  id : IdField;
  opaque : bytes;
}.

(** Modelled from the spec: [SealClient.encrypt] and
    [EncryptedObject.parse] belong to the [@mysten/seal] package and are
    missing from the sources.  The spec treats the encrypted object as
    opaque except for one guarantee: the identifier it was created with can
    be recovered from its header.  [encrypts threshold packageId idHex data
    out] says that the service may answer [out] to that request. *)
Class SealSdk `{SuiUtils} : Type := {
  encrypts : nat → string → string → bytes → bytes → Prop;
  parse : bytes → option EncryptedObject;
  parse_encrypts threshold packageId idHex data out :
    encrypts threshold packageId idHex data out →
    ∃ obj, parse out = Some obj ∧
      (id obj = IdString idHex ∨
       ∃ b, id obj = IdBytes b ∧ fromHex idHex = Some b);
}.

(** ** download_walrus.ts *)

Module DownloadWalrus.

Definition computeKeyId `{SuiUtils} (sender : string) (nonce : ref) : M ref :=
  let senderHex :=
    if JsString.startsWith sender "0x" then JsString.slice sender 2 else sender in
  senderBytes ← callFromHex senderHex;
  senderLen ← TypedArray.len senderBytes;
  nonceLen ← TypedArray.len nonce;
  keyId ← TypedArray.new (senderLen + nonceLen);
  TypedArray.set keyId senderBytes 0 ;;
  TypedArray.set keyId nonce senderLen ;;
  mret keyId.

(** [downloadAndDecrypt], lines 156-162: the identifier of a downloaded
    encrypted object. *)
Definition extractKeyId `{SealSdk} (downloadResult : bytes) : M ref :=
  encryptedData ← TypedArray.alloc downloadResult;
  bs ← TypedArray.read encryptedData;
  match parse bs with
  | None => throw InvalidEncryptedObjectFormat
  | Some encryptedObject =>
      let keyIdHex :=
        match id encryptedObject with
        | IdString s => s
        | IdBytes b => toHex b
        end in
      callFromHex (if JsString.startsWith keyIdHex "0x"
                   then JsString.slice keyIdHex 2 else keyIdHex)
  end.

End DownloadWalrus.

(** ** The hex codec of the spec *)

(** Modelled from the spec: [fromHex] and [toHex] come from the
    [@mysten/sui/utils] package and are missing from the sources.  Per the
    spec, decoding "fails with MalformedHexInput when a supplied hex string
    has odd length or non-hex characters", and the transport encoding of the
    bytes [aa .. aa 01 02 03 04 05] is the lowercase string
    [aa..aa0102030405]: two digits per byte, no prefix. *)
Module SpecHex.

Fixpoint fromHex (s : string) : option bytes :=
  match s with
  | EmptyString => Some []
  | String _ EmptyString => None
  | String c1 (String c2 rest) =>
      match Hex.digitValue c1, Hex.digitValue c2, fromHex rest with
      | Some hi, Some lo, Some bs => Some (TypedArray.toUint8 (16 * hi + lo) :: bs)
      | _, _, _ => None
      end
  end.

Definition hexChar (d : N) : Ascii.ascii :=
  if (d <? 10)%N then Ascii.ascii_of_N (48 + d) else Ascii.ascii_of_N (87 + d).

Fixpoint toHex (bs : bytes) : string :=
  match bs with
  | [] => EmptyString
  | b :: bs' =>
      let n := Byte.to_N b in
      String (hexChar (n / 16)) (String (hexChar (n mod 16)) (toHex bs'))
  end.

Definition utils : SuiUtils := Build_SuiUtils fromHex toHex.

End SpecHex.

(** ** The hex codec of the package *)

(** [fromHex] as the package [@mysten/sui/utils] publishes it (it
    re-exports [@mysten/bcs]).  The package is not part of the sources; its
    decoder reads

      const normalized = hexStr.startsWith('0x') ? hexStr.slice(2) : hexStr;
      const padded = normalized.length % 2 === 0 ? normalized : `0${normalized}`;
      const intArr = padded.match(/[0-9a-fA-F]{2}/g)?.map((byte) => parseInt(byte, 16)) ?? [];
      if (intArr.length !== padded.length / 2) throw new Error(`Invalid hex string ${hexStr}`);
      return Uint8Array.from(intArr);

    and its encoder writes two lowercase digits per byte, as [SpecHex.toHex]
    does. *)
Module PackageHex.

(** [s.match(/[0-9a-fA-F]{2}/g)]: the pairs of hex digits found from left
    to right, without overlap; the empty list also stands for [null]. *)
Fixpoint matchPairs (s : string) : list (Ascii.ascii * Ascii.ascii) :=
  match s with
  | String c1 (String c2 rest' as rest) =>
      if Hex.isHexDigit c1 && Hex.isHexDigit c2
      then (c1, c2) :: matchPairs rest'
      else matchPairs rest
  | _ => []
  end.

(** [parseInt(byte, 16)] for a matched pair. *)
Definition parsePair (m : Ascii.ascii * Ascii.ascii) : N :=
  match Hex.digitValue m.1, Hex.digitValue m.2 with
  | Some hi, Some lo => 16 * hi + lo
  | _, _ => 0
  end.

Definition padded (normalized : string) : string :=
  if Nat.even (String.length normalized) then normalized else String "0" normalized.

Definition fromHex (hexStr : string) : option bytes :=
  let normalized :=
    if JsString.startsWith hexStr "0x" then JsString.slice hexStr 2 else hexStr in
  let intArr := parsePair <$> matchPairs (padded normalized) in
  if decide (length intArr = String.length (padded normalized) / 2)%nat
  then Some (TypedArray.toUint8 <$> intArr)
  else None.

Definition utils : SuiUtils := Build_SuiUtils fromHex SpecHex.toHex.

End PackageHex.

(** ** down_encrypted_key.ts *)

Module DownEncryptedKey.

Definition WALRUS_AGGREGATOR_URLS : list string :=
  ["https://aggregator.walrus-testnet.walrus.space"].

(** What a [fetch] of a blob URL can do: answer with a status and a body
    ([None] when reading the body with [arrayBuffer()] rejects), or
    reject, on a network error or when the ten second timer aborts the
    request. *)
Inductive FetchOutcome : Type :=
| Response (status : nat) (body : option bytes)
| Rejected.

(** [response.ok] *)
Definition ok (status : nat) : bool := ((200 <=? status) && (status <=? 299))%nat.

Inductive jsError : Type :=
| FetchError
| BodyError
| FsError.

(** Observable effects, in order.  Console messages are quoted without
    their leading pictograph. *)
Inductive Event : Type :=
| ConsoleLog (msg : string)
| ConsoleWarn (msg : string)
| ConsoleError (msg : string)
| Mkdir (path : string)
| WriteFile (path : string) (data : bytes).

(** A step returns, throws, or ends the process with [process.exit]. *)
Inductive outcome (A : Type) : Type :=
| Return (a : A)
| Raise (e : jsError)
| Exit (code : nat).
Arguments Return {A} a.
Arguments Raise {A} e.
Arguments Exit {A} code.

Definition IO (A : Type) : Type := list Event → outcome A * list Event.

#[export] Instance IO_ret : MRet IO := λ A a t, (Return a, t).

#[export] Instance IO_bind : MBind IO := λ A B k m t,
  match m t with
  | (Return a, t') => k a t'
  | (Raise e, t') => (Raise e, t')
  | (Exit c, t') => (Exit c, t')
  end.

Definition emit (e : Event) : IO unit := λ t, (Return tt, t ++ [e]).

Definition raise {A} (e : jsError) : IO A := λ t, (Raise e, t).

(** [process.exit(code)] *)
Definition exit {A} (code : nat) : IO A := λ t, (Exit code, t).

(** [try { m } catch (err) { handler err }]; [process.exit] is not an
    exception and is not caught. *)
Definition tryCatch {A} (m : IO A) (handler : jsError → IO A) : IO A := λ t,
  match m t with
  | (Raise e, t') => handler e t'
  | r => r
  end.

(** The world outside the script. *)
Record Env : Type := {
  fetch : string → FetchOutcome;
  existsSync : string → bool;
  fsThrows : string → bool;
  outputDir : string;
  pathJoin : string → string → string;
}.

Definition callFetch (env : Env) (url : string) : IO (nat * option bytes) :=
  match fetch env url with
  | Response status body => mret (status, body)
  | Rejected => raise FetchError
  end.

Definition arrayBuffer (response : nat * option bytes) : IO bytes :=
  match response.2 with
  | Some buf => mret buf
  | None => raise BodyError
  end.

(** The [for] loop of [downloadBlobFromWalrus] over the aggregators
    still to try. *)
Fixpoint downloadLoop (env : Env) (aggregators : list string) (blobId : string)
  : IO (option bytes) :=
  match aggregators with
  | [] => mret None
  | aggregator :: rest =>
      let aggregatorUrl := aggregator +:+ "/v1/blobs/" +:+ blobId in
      emit (ConsoleLog ("Trying to download from: " +:+ aggregator)) ;;
      found ←
        tryCatch
          (response ← callFetch env aggregatorUrl;
           if ok response.1 then
             emit (ConsoleLog ("Successfully downloaded from: " +:+ aggregator)) ;;
             buf ← arrayBuffer response;
             mret (Some buf)
           else
             emit (ConsoleWarn ("Failed to download from " +:+ aggregator
                                +:+ ": HTTP " +:+ pretty response.1)) ;;
             mret None)
          (λ err,
             emit (ConsoleWarn ("Error downloading from " +:+ aggregator +:+ ":")) ;;
             mret None);
      match found with
      | Some buf => mret (Some buf)
      | None => downloadLoop env rest blobId
      end
  end.

(** [None] is the [null] returned after the loop. *)
Definition downloadBlobFromWalrus (env : Env) (blobId : string) : IO (option bytes) :=
  downloadLoop env WALRUS_AGGREGATOR_URLS blobId.

Definition errorMsg : string :=
  "Cannot retrieve file from Walrus aggregators. File uploaded more than 1 epoch ago may have been deleted.".

(** A file system call that may throw. *)
Definition fsCall (env : Env) (path : string) (e : Event) : IO unit :=
  if fsThrows env path then raise FsError else emit e.

(** [main] from line 119 on, once the blob id has been read from the
    command line or the prompt. *)
Definition main (env : Env) (blobId : string) : IO unit :=
  emit (ConsoleLog ("Blob ID: " +:+ blobId)) ;;
  tryCatch
    (emit (ConsoleLog "Downloading encrypted blob from Walrus...") ;;
     downloadResult ← downloadBlobFromWalrus env blobId;
     match downloadResult with
     | None =>
         emit (ConsoleError errorMsg) ;;
         exit 1
     | Some buf =>
         emit (ConsoleLog ("Downloaded blob: " +:+ pretty (length buf) +:+ " bytes")) ;;
         (if existsSync env (outputDir env) then mret tt
          else fsCall env (outputDir env) (Mkdir (outputDir env))) ;;
         let outputPath :=
           pathJoin env (outputDir env)
             ("encrypted_" +:+ String.substring 0 8 blobId +:+ ".bin") in
         fsCall env outputPath (WriteFile outputPath buf) ;;
         emit (ConsoleLog "Download successful!") ;;
         emit (ConsoleLog ("Encrypted data saved to: " +:+ outputPath)) ;;
         emit (ConsoleLog ("File size: " +:+ pretty (length buf) +:+ " bytes"))
     end)
    (λ error,
       emit (ConsoleError "Failed to download:") ;;
       raise error).

(** [main().catch(...)], the last statement of the script. *)
Definition run (env : Env) (blobId : string) : IO unit :=
  tryCatch (main env blobId)
    (λ error, emit (ConsoleError "Error:") ;; exit 1).

End DownEncryptedKey.

(** ** JavaScript values *)

(** The values a JSON response is made of, and [undefined], the value of
    a property that is missing. *)
Module Js.

#[warnings="-register-all"]
Inductive value : Type :=
| Undefined
| Null
| Bool (b : bool)
| Num (x : Q)
| Str (s : string)
| Arr (items : list value)
| Obj (props : list (string * value)).

Inductive error : Type :=
| TypeError
| Error (msg : string).

Inductive res (A : Type) : Type :=
| Done (a : A)
| Thrown (e : error).
Arguments Done {A} a.
Arguments Thrown {A} e.

#[export] Instance res_ret : MRet res := λ A a, Done a.

#[export] Instance res_bind : MBind res := λ A B k m,
  match m with
  | Done a => k a
  | Thrown e => Thrown e
  end.

(** The property [k] of an object; the first entry counts. *)
Fixpoint lookup (k : string) (props : list (string * value)) : option value :=
  match props with
  | [] => None
  | (k', v) :: rest => if String.eqb k k' then Some v else lookup k rest
  end.

(** [v?.k], for the property names of the scripts ([data], [content],
    [fields], [id], [allowlist_id], [blobId] and the like), none of which
    a string, a number, a boolean or an array has. *)
Definition optGet (v : value) (k : string) : value :=
  match v with
  | Obj props => default Undefined (lookup k props)
  | _ => Undefined
  end.

(** [v.k]: a [TypeError] on [undefined] and [null]. *)
Definition get (v : value) (k : string) : res value :=
  match v with
  | Undefined | Null => Thrown TypeError
  | _ => Done (optGet v k)
  end.

(** [k in v]: a [TypeError] unless [v] is an object or an array. *)
Definition has (k : string) (v : value) : res bool :=
  match v with
  | Obj props => Done (bool_decide (is_Some (lookup k props)))
  | Arr _ => Done false
  | _ => Thrown TypeError
  end.

(** The value as a condition. *)
Definition truthy (v : value) : bool :=
  match v with
  | Undefined | Null => false
  | Bool b => b
  | Num x => negb (Qeq_bool x 0)
  | Str s => negb (String.eqb s "")
  | Arr _ | Obj _ => true
  end.

(** [a || b] on values already computed. *)
Definition or (a b : value) : value := if truthy a then a else b.

(** [typeof v === 'object'] *)
Definition isObjectType (v : value) : bool :=
  match v with
  | Null | Arr _ | Obj _ => true
  | _ => false
  end.

End Js.

(** ** upload_walrus.ts: the answer of the publisher *)

Module UploadWalrusStore.
Import Js.

Record BlobInfo : Type := {
  blobId : value;
  endEpoch : value;
  suiRefType : string;
  suiRef : value;
  status : string;
}.

Definition extractBlobInfo (storageInfo : value) : res BlobInfo :=
  certified ← has "alreadyCertified" storageInfo;
  if (certified : bool) then
    a ← get storageInfo "alreadyCertified";
    blobId ← get a "blobId";
    endEpoch ← get a "endEpoch";
    event ← get a "event";
    txDigest ← get event "txDigest";
    Done {| blobId := blobId;
            endEpoch := endEpoch;
            suiRefType := "Previous Sui Certified Event";
            suiRef := txDigest;
            status := "Already certified" |}
  else
    created ← has "newlyCreated" storageInfo;
    if (created : bool) then
      n ← get storageInfo "newlyCreated";
      blobObject ← get n "blobObject";
      blobId ← get blobObject "blobId";
      storage ← get blobObject "storage";
      endEpoch ← get storage "endEpoch";
      objectId ← get blobObject "id";
      Done {| blobId := blobId;
              endEpoch := endEpoch;
              suiRefType := "Associated Sui Object";
              suiRef := objectId;
              status := "Newly created" |}
    else Thrown (Error "Unhandled successful response!").

End UploadWalrusStore.

(** ** The allowlist check script (second script of upload_walrus.ts) *)

Module CheckAllowlist.
Import Js.

Record Cap : Type := {
  cap_id : value;
  allowlist_id : value;
}.

(** The callback of [res.data.map] in [getAllCaps]; [None] is [null]. *)
Definition capOf (obj : value) : res (option Cap) :=
  data ← get obj "data";
  let content := optGet data "content" in
  if negb (truthy content) || negb (isObjectType content) then Done None
  else
    hasFields ← has "fields" content;
    if negb (hasFields : bool) then Done None
    else
      fields ← get content "fields";
      Done (Some {| cap_id := or (optGet (optGet fields "id") "id") (optGet fields "id");
                    allowlist_id :=
                      or (optGet fields "allowlist_id")
                         (optGet (optGet fields "allowlist_id") "id") |}).

(** The callback of [filter] in [getAllCaps]. *)
Definition keep (item : option Cap) : bool :=
  match item with
  | None => false
  | Some c => truthy (cap_id c) && truthy (allowlist_id c)
  end.

(** [Array.prototype.map] with a callback that may throw. *)
Fixpoint mapThrowing {A B} (f : A → res B) (l : list A) : res (list B) :=
  match l with
  | [] => Done []
  | x :: rest => y ← f x; ys ← mapThrowing f rest; Done (y :: ys)
  end.

(** [getAllCaps], from the [data] array the client answered with. *)
Definition getAllCaps (data : list value) : res (list Cap) :=
  mapThrowing capOf data ≫= λ items : list (option Cap),
  Done (omap (λ item, if keep item then item else None) items).

(** [item.allowlist_id === allowlistId] for a string [allowlistId]. *)
Definition matches (allowlistId : string) (item : Cap) : bool :=
  match allowlist_id item with
  | Str s => String.eqb s allowlistId
  | _ => false
  end.

(** [findCapForAllowlist], from the [data] array [getAllCaps] is given;
    [None] is [null]. *)
Definition findCapForAllowlist (data : list value) (allowlistId : string)
  : res (option value) :=
  getAllCaps data ≫= λ caps : list Cap,
  let matchingCaps := filter (λ item, matches allowlistId item = true) caps in
  match matchingCaps with
  | [] => Done None
  | first :: _ => Done (Some (cap_id first))
  end.

End CheckAllowlist.

(** ** decrypt_sui_data.ts: the stored record and the object id *)

Module DecryptPData.
Import DownEncryptedKey.

(** [decryptPData], lines 103-109: the identifier recomputed from the
    fields [creator] and [nonce] of the stored object.  [storedNonce] is
    the array of numbers the node answers with. *)
Definition keyIdOfRecord `{SuiUtils} (creator : string) (storedNonce : list N)
  : M (ref * string) :=
  shown ← TypedArray.from storedNonce;
  _ ← callToHex shown;
  nonceBytes ← TypedArray.from storedNonce;
  keyId ← DecryptSuiData.computeKeyId creator nonceBytes;
  encryptionId ← callToHex keyId;
  mret (keyId, encryptionId).

(** A string or [undefined] as a condition. *)
Definition given (x : option string) : bool :=
  match x with
  | Some s => negb (String.eqb s "")
  | None => false
  end.

(** [main], lines 207-234: the object id, from the command line, else
    from the environment, else from the prompt; [userInput] is what
    [getUserInput] resolves to. *)
Definition main_objectId (argv2 envObjectId : option string) (userInput : string)
  : IO string :=
  let objectId := argv2 in
  let objectId := if given objectId then objectId else envObjectId in
  objectId ←
    (if given objectId then mret (default "" objectId)
     else
       emit (ConsoleLog "PrivateData 객체 복호화") ;;
       emit (ConsoleLog "==================================================") ;;
       if given (Some userInput) then mret userInput
       else
         emit (ConsoleError "객체 ID가 입력되지 않았습니다.") ;;
         exit 1);
  if JsString.startsWith objectId "0x" then
    emit (ConsoleLog ("사용할 객체 ID: " +:+ objectId)) ;;
    mret objectId
  else
    emit (ConsoleError "잘못된 객체 ID 형식입니다. 0x로 시작해야 합니다.") ;;
    exit 1.

End DecryptPData.

(** ** Vocabulary of the statements *)

(** The textual prefix as it reaches the decoder:
    [x.startsWith('0x') ? x.slice(2) : x]. *)
Definition strip0x (x : string) : string :=
  if JsString.startsWith x "0x" then JsString.slice x 2 else x.

(** The bytes of the array a computation returns, read in the store it
    leaves behind. *)
Definition returned (m : M ref) (h : heap) : result bytes :=
  match m h with
  | (Ok r, h') =>
      match h' !! r with
      | Some bs => Ok bs
      | None => Throw InvalidReference
      end
  | (Throw e, _) => Throw e
  end.

(** A minimal framing that meets the guarantee of [SealSdk]: one length
    byte, the identifier, then the opaque rest. *)
Module FramedSeal.

Definition parse (out : bytes) : option EncryptedObject :=
  match out with
  | [] => None
  | k :: rest =>
      let n := N.to_nat (Byte.to_N k) in
      if decide (n ≤ length rest)%nat
      then Some {| id := IdBytes (take n rest); opaque := drop n rest |}
      else None
  end.

Definition encrypts `{SuiUtils}
  (threshold : nat) (packageId idHex : string) (data out : bytes) : Prop :=
  ∃ b, fromHex idHex = Some b ∧ parse out = Some {| id := IdBytes b; opaque := data |}.

Definition sdk `{SuiUtils} : SealSdk :=
  Build_SealSdk _ encrypts parse
    (λ threshold packageId idHex data out H,
       match H with
       | ex_intro _ b (conj Hb Hp) =>
           ex_intro _ {| id := IdBytes b; opaque := data |}
             (conj Hp (or_intror (ex_intro _ b (conj eq_refl Hb))))
       end).

End FramedSeal.

(** A download attempt fails when the aggregator answers with a status
    that is not OK, when the request is rejected (network error, abort on
    timeout), or when reading the body is. *)
Definition attemptFails (o : DownEncryptedKey.FetchOutcome) : bool :=
  match o with
  | DownEncryptedKey.Response status body =>
      negb (DownEncryptedKey.ok status) || negb (bool_decide (is_Some body))
  | DownEncryptedKey.Rejected => true
  end.

(** Every aggregator of the list fails for this blob. *)
Definition allFail (env : DownEncryptedKey.Env) (aggregators : list string)
  (blobId : string) : bool :=
  forallb
    (λ aggregator,
       attemptFails (DownEncryptedKey.fetch env (aggregator +:+ "/v1/blobs/" +:+ blobId)))
    aggregators.

(** The events that touch the file system. *)
Definition isFsEvent (e : DownEncryptedKey.Event) : bool :=
  match e with
  | DownEncryptedKey.Mkdir _ | DownEncryptedKey.WriteFile _ _ => true
  | _ => false
  end.

(** The file [main] of down_encrypted_key.ts writes the blob to. *)
Definition outputPath (env : DownEncryptedKey.Env) (blobId : string) : string :=
  DownEncryptedKey.pathJoin env (DownEncryptedKey.outputDir env)
    ("encrypted_" +:+ String.substring 0 8 blobId +:+ ".bin").

(** The output directory exists or can be created, and the file can be
    written. *)
Definition fsOk (env : DownEncryptedKey.Env) (blobId : string) : bool :=
  (DownEncryptedKey.existsSync env (DownEncryptedKey.outputDir env)
   || negb (DownEncryptedKey.fsThrows env (DownEncryptedKey.outputDir env)))
  && negb (DownEncryptedKey.fsThrows env (outputPath env blobId)).


(** The [fields] of an owned object, [undefined] when any step on the way
    is missing. *)
Definition fieldsOf (obj : Js.value) : Js.value :=
  Js.optGet (Js.optGet (Js.optGet obj "data") "content") "fields".

(** The cap an owned object stands for: its id is [fields.id.id], else
    [fields.id]; it counts when that and [fields.allowlist_id] are both
    truthy. *)
Definition capSpec (obj : Js.value) : option CheckAllowlist.Cap :=
  let fields := fieldsOf obj in
  let c := {| CheckAllowlist.cap_id :=
                Js.or (Js.optGet (Js.optGet fields "id") "id") (Js.optGet fields "id");
              CheckAllowlist.allowlist_id := Js.optGet fields "allowlist_id" |} in
  if Js.truthy (CheckAllowlist.cap_id c) && Js.truthy (CheckAllowlist.allowlist_id c)
  then Some c else None.

(** [undefined] or [null]. *)
Definition nullish (v : Js.value) : bool :=
  match v with
  | Js.Undefined | Js.Null => true
  | _ => false
  end.

(** The first of the candidates that is a non-empty string. *)
Fixpoint firstGiven (candidates : list (option string)) : option string :=
  match candidates with
  | [] => None
  | c :: rest => if DecryptPData.given c then c else firstGiven rest
  end.

(** * Properties *)

(** ** The store *)

Section Store.
Implicit Types (h : heap) (r : ref) (bs : bytes).

Lemma bind_Ok {A B} (m : M A) (k : A → M B) h a h' :
  m h = (Ok a, h') → (m ≫= k) h = k a h'.
Proof. intros E. unfold mbind, M_bind. by rewrite E. Qed.

Lemma read_Ok h r bs : h !! r = Some bs → TypedArray.read r h = (Ok bs, h).
Proof. intros E. unfold TypedArray.read. by rewrite E. Qed.

Lemma len_Ok h r bs : h !! r = Some bs → TypedArray.len r h = (Ok (length bs), h).
Proof. intros E. unfold TypedArray.len. by erewrite bind_Ok by by apply read_Ok. Qed.

Lemma write_Ok h r old bs :
  h !! r = Some old → TypedArray.write r bs h = (Ok tt, <[r:=bs]> h).
Proof. intros E. unfold TypedArray.write. by rewrite E. Qed.

Lemma set_Ok h target source offset (src tgt : bytes) :
  h !! source = Some src → h !! target = Some tgt →
  (offset + length src ≤ length tgt)%nat →
  TypedArray.set target source offset h
  = (Ok tt, <[target:=list_inserts offset src tgt]> h).
Proof.
  intros Es Et Hle. unfold TypedArray.set.
  erewrite bind_Ok by by apply read_Ok.
  erewrite bind_Ok by by apply read_Ok.
  rewrite decide_True by done. by eapply write_Ok.
Qed.

Lemma spread_Ok h r bs :
  h !! r = Some bs → TypedArray.spread r h = (Ok (Byte.to_N <$> bs), h).
Proof. intros E. unfold TypedArray.spread. by erewrite bind_Ok by by apply read_Ok. Qed.

Lemma lookup_last {A} (l : list A) (x : A) : (l ++ [x]) !! length l = Some x.
Proof. by apply list_lookup_middle. Qed.

Lemma insert_last {A} (l : list A) (x y : A) :
  <[length l:=y]> (l ++ [x]) = l ++ [y].
Proof. rewrite insert_app_r_alt, Nat.sub_diag; done. Qed.

(** The two [set] calls of [computeKeyId] turn the zeroed buffer into the
    sender bytes followed by the nonce. *)
Lemma inserts_concat (p n : bytes) :
  list_inserts (length p) n
    (list_inserts 0 p (replicate (length p + length n) x00)) = p ++ n.
Proof.
  rewrite replicate_add, list_inserts_0_r by by rewrite length_replicate.
  rewrite <-(Nat.add_0_r (length p)), list_inserts_app_r.
  f_equal. rewrite <-(app_nil_r (replicate _ _)), list_inserts_0_r.
  - apply app_nil_r.
  - by rewrite length_replicate.
Qed.

(** A byte survives the trip through a JavaScript number. *)
Lemma toUint8_to_N (b : byte) : TypedArray.toUint8 (Byte.to_N b) = b.
Proof.
  unfold TypedArray.toUint8.
  rewrite N.mod_small by (pose proof (Byte.to_N_bounded b); lia).
  by rewrite Byte.of_to_N.
Qed.

Lemma toUint8_spread (p n : bytes) :
  TypedArray.toUint8 <$> ((Byte.to_N <$> p) ++ (Byte.to_N <$> n)) = p ++ n.
Proof.
  rewrite <-fmap_app, <-list_fmap_compose.
  rewrite <-(list_fmap_id (p ++ n)) at 2. apply list_fmap_ext.
  intros _ b _. apply toUint8_to_N.
Qed.

End Store.

(** ** What the derivations compute *)

Section Derivation.
Context `{SuiUtils}.
Implicit Types (h : heap) (nonce : ref) (sender : string) (p n : bytes).

(** A call of [computeKeyId] allocates the decoded sender and the
    identifier, in this order, and touches nothing else. *)
Lemma computeKeyId_run h sender nonce n :
  h !! nonce = Some n →
  UploadWalrus.computeKeyId sender nonce h =
    match fromHex (strip0x sender) with
    | Some p => (Ok (S (length h)), h ++ [p; p ++ n])
    | None => (Throw MalformedHexInput, h)
    end.
Proof.
  intros Hn. unfold UploadWalrus.computeKeyId, callFromHex. fold (strip0x sender).
  destruct (fromHex (strip0x sender)) as [p|]; [|done].
  erewrite bind_Ok by reflexivity.
  assert (Hn' : (h ++ [p]) !! nonce = Some n) by by apply lookup_app_l_Some.
  erewrite bind_Ok by apply len_Ok, lookup_last.
  erewrite bind_Ok by by apply len_Ok.
  erewrite bind_Ok by reflexivity.
  set (h1 := h ++ [p]) in *. set (z := replicate _ _).
  erewrite bind_Ok; cycle 1.
  { eapply set_Ok.
    - apply lookup_app_l_Some, lookup_last.
    - apply lookup_last.
    - unfold z. rewrite length_replicate. simpl. lia. }
  rewrite insert_last.
  erewrite bind_Ok; cycle 1.
  { eapply set_Ok.
    - apply lookup_app_l_Some, Hn'.
    - apply lookup_last.
    - rewrite length_inserts. unfold z. rewrite length_replicate. lia. }
  rewrite insert_last. unfold z. rewrite inserts_concat.
  unfold h1. rewrite length_app, <-app_assoc. simpl.
  by rewrite Nat.add_1_r.
Qed.

(** The inline derivation of the allowlist upload script allocates the
    same two objects. *)
Lemma main_keyId_run h allowlistId nonce n :
  h !! nonce = Some n →
  AllowlistUpload.main_keyId allowlistId nonce h =
    match fromHex (strip0x allowlistId) with
    | Some p => (Ok (S (length h)), h ++ [p; p ++ n])
    | None => (Throw MalformedHexInput, h)
    end.
Proof.
  intros Hn. unfold AllowlistUpload.main_keyId, callFromHex.
  fold (strip0x allowlistId).
  destruct (fromHex (strip0x allowlistId)) as [p|]; [|done].
  erewrite bind_Ok by reflexivity.
  erewrite bind_Ok by apply spread_Ok, lookup_last.
  erewrite bind_Ok by by apply spread_Ok, lookup_app_l_Some.
  unfold TypedArray.from, TypedArray.alloc.
  rewrite toUint8_spread, length_app, <-app_assoc. simpl.
  by rewrite Nat.add_1_r.
Qed.

Lemma returned_computeKeyId h sender nonce n :
  h !! nonce = Some n →
  returned (UploadWalrus.computeKeyId sender nonce) h =
    match fromHex (strip0x sender) with
    | Some p => Ok (p ++ n)
    | None => Throw MalformedHexInput
    end.
Proof.
  intros Hn. unfold returned. rewrite (computeKeyId_run _ _ _ _ Hn).
  destruct (fromHex (strip0x sender)) as [p|]; [|done].
  by rewrite (lookup_app_r h) by lia; replace (S (length h) - length h) with 1 by lia.
Qed.

Lemma returned_main_keyId h allowlistId nonce n :
  h !! nonce = Some n →
  returned (AllowlistUpload.main_keyId allowlistId nonce) h =
    match fromHex (strip0x allowlistId) with
    | Some p => Ok (p ++ n)
    | None => Throw MalformedHexInput
    end.
Proof.
  intros Hn. unfold returned. rewrite (main_keyId_run _ _ _ _ Hn).
  destruct (fromHex (strip0x allowlistId)) as [p|]; [|done].
  by rewrite (lookup_app_r h) by lia; replace (S (length h) - length h) with 1 by lia.
Qed.

(** The three copies of [computeKeyId] are one function. *)
Lemma computeKeyId_download sender nonce h :
  DownloadWalrus.computeKeyId sender nonce h
  = UploadWalrus.computeKeyId sender nonce h.
Proof. reflexivity. Qed.

Lemma computeKeyId_decrypt sender nonce h :
  DecryptSuiData.computeKeyId sender nonce h
  = UploadWalrus.computeKeyId sender nonce h.
Proof. reflexivity. Qed.

End Derivation.

(** ** The identifier is the prefix followed by the nonce *)

(** C1.  For every prefix [p] (the bytes the sender string decodes to) and
    every nonce [n], of any lengths, [computeKeyId] returns an array of
    [length p + length n] bytes that is [p] followed immediately by [n]:
    its first [length p] bytes are [p] and what follows is [n], with
    nothing in between, before or after. *)
Theorem computeKeyId_concat `{SuiUtils}
  (h : heap) (sender : string) (nonce : ref) (p n : bytes) :
  h !! nonce = Some n →
  fromHex (strip0x sender) = Some p →
  ∃ keyId h' k,
    UploadWalrus.computeKeyId sender nonce h = (Ok keyId, h') ∧
    h' !! keyId = Some k ∧
    k = p ++ n ∧
    length k = length p + length n ∧
    take (length p) k = p ∧
    drop (length p) k = n.
Proof.
  intros Hn Hp. exists (S (length h)), (h ++ [p; p ++ n]), (p ++ n).
  rewrite (computeKeyId_run _ _ _ _ Hn), Hp.
  repeat split.
  - rewrite lookup_app_r by lia. by replace (S (length h) - length h) with 1 by lia.
  - apply length_app.
  - by rewrite take_app_length.
  - by rewrite drop_app_length.
Qed.

Lemma computeKeyId_concat_witness :
  ∃ keyId h' k,
    @UploadWalrus.computeKeyId SpecHex.utils "0xaabb" 0 [[x01; x02; x03]]
      = (Ok keyId, h') ∧
    h' !! keyId = Some k ∧
    k = [xaa; xbb] ++ [x01; x02; x03] ∧
    length k = length [xaa; xbb] + length [x01; x02; x03] ∧
    take (length [xaa; xbb]) k = [xaa; xbb] ∧
    drop (length [xaa; xbb]) k = [x01; x02; x03].
Proof.
  apply (@computeKeyId_concat SpecHex.utils
           [[x01; x02; x03]] "0xaabb" 0 [xaa; xbb] [x01; x02; x03]);
    reflexivity.
Defined.

(** C2.  Two different prefixes of one fixed length [L] (32 for Sui
    addresses) never give the same identifier for the same nonce; in
    particular the policy-bound derivation of the allowlist upload script
    and the address-bound [computeKeyId] differ when the policy object's
    address and the requester's address differ. *)
Theorem distinct_prefixes_distinct_ids `{SuiUtils}
  (h : heap) (s1 s2 : string) (nonce : ref) (p1 p2 n : bytes) (L : nat) :
  h !! nonce = Some n →
  fromHex (strip0x s1) = Some p1 →
  fromHex (strip0x s2) = Some p2 →
  length p1 = L → length p2 = L →
  p1 ≠ p2 →
  returned (UploadWalrus.computeKeyId s1 nonce) h
    ≠ returned (UploadWalrus.computeKeyId s2 nonce) h ∧
  returned (AllowlistUpload.main_keyId s1 nonce) h
    ≠ returned (UploadWalrus.computeKeyId s2 nonce) h.
Proof.
  intros Hn H1 H2 _ _ Hne.
  rewrite (returned_main_keyId _ _ _ _ Hn), !(returned_computeKeyId _ _ _ _ Hn), H1, H2.
  split; intros E; injection E as E; by apply app_inv_tail in E.
Qed.

Lemma distinct_prefixes_distinct_ids_witness :
  let policy := "0xaaaaaaaaaaaaaaaaaaaaaaaaaaaaaaaaaaaaaaaaaaaaaaaaaaaaaaaaaaaaaaaa" in
  let requester := "0xbbbbbbbbbbbbbbbbbbbbbbbbbbbbbbbbbbbbbbbbbbbbbbbbbbbbbbbbbbbbbbbb" in
  let h := [[x01; x02; x03; x04; x05]] in
  returned (@UploadWalrus.computeKeyId SpecHex.utils policy 0) h
    ≠ returned (@UploadWalrus.computeKeyId SpecHex.utils requester 0) h ∧
  returned (@AllowlistUpload.main_keyId SpecHex.utils policy 0) h
    ≠ returned (@UploadWalrus.computeKeyId SpecHex.utils requester 0) h.
Proof.
  intros policy requester h.
  apply (@distinct_prefixes_distinct_ids SpecHex.utils h policy requester 0
           (replicate 32 xaa) (replicate 32 xbb) [x01; x02; x03; x04; x05] 32);
    [reflexivity | reflexivity | reflexivity | reflexivity | reflexivity | discriminate].
Defined.

(** ** The 0x prefix *)

Lemma strip0x_0x (s : string) : strip0x ("0x" +:+ s) = s.
Proof. unfold String.append. reflexivity. Qed.

(** A hex string does not start with [0x]: ['x'] is no digit. *)
Lemma strip0x_hex (s : string) : Hex.isHexString s = true → strip0x s = s.
Proof.
  intros Hs. unfold strip0x.
  destruct s as [|c [|d s]]; [done | |]; cbn [JsString.startsWith].
  - by destruct (Ascii.eqb "0" c).
  - destruct (Ascii.eqb "0" c); [|done].
    destruct (Ascii.eqb_spec "x" d) as [<-|]; [|done].
    cbn [Hex.isHexString] in Hs. apply andb_true_iff in Hs as [_ Hs].
    apply andb_true_iff in Hs as [Hs _]. discriminate Hs.
Qed.

(** C5.  A leading [0x] is removed before decoding: for every hex string
    [s], deriving from ["0x" + s] is deriving from [s], in [computeKeyId]
    and in the inline derivation of the allowlist upload script. *)
Theorem derive_ignores_0x `{SuiUtils} (s : string) (nonce : ref) (h : heap) :
  Hex.isHexString s = true →
  UploadWalrus.computeKeyId ("0x" +:+ s) nonce h
    = UploadWalrus.computeKeyId s nonce h ∧
  AllowlistUpload.main_keyId ("0x" +:+ s) nonce h
    = AllowlistUpload.main_keyId s nonce h.
Proof.
  intros Hs. unfold UploadWalrus.computeKeyId, AllowlistUpload.main_keyId.
  assert (E : ∀ x, (if JsString.startsWith x "0x" then JsString.slice x 2 else x)
                   = strip0x x) by reflexivity.
  by rewrite !E, strip0x_0x, (strip0x_hex _ Hs).
Qed.

Lemma derive_ignores_0x_witness :
  @UploadWalrus.computeKeyId SpecHex.utils "0xaabb" 0 [[x01; x02]]
    = @UploadWalrus.computeKeyId SpecHex.utils "aabb" 0 [[x01; x02]] ∧
  @AllowlistUpload.main_keyId SpecHex.utils "0xaabb" 0 [[x01; x02]]
    = @AllowlistUpload.main_keyId SpecHex.utils "aabb" 0 [[x01; x02]].
Proof.
  apply (@derive_ignores_0x SpecHex.utils "aabb" 0 [[x01; x02]]). reflexivity.
Defined.

(** ** One derivation, four places *)

(** C7.  Given the same prefix string and the same nonce, the three
    copies of [computeKeyId] and the inline derivation of the allowlist
    upload script return the same array, byte for byte, and leave the same
    store behind. *)
Theorem derivations_agree `{SuiUtils}
  (h : heap) (sender : string) (nonce : ref) (n : bytes) :
  h !! nonce = Some n →
  DownloadWalrus.computeKeyId sender nonce h
    = UploadWalrus.computeKeyId sender nonce h ∧
  DecryptSuiData.computeKeyId sender nonce h
    = UploadWalrus.computeKeyId sender nonce h ∧
  AllowlistUpload.main_keyId sender nonce h
    = UploadWalrus.computeKeyId sender nonce h ∧
  returned (AllowlistUpload.main_keyId sender nonce) h
    = returned (UploadWalrus.computeKeyId sender nonce) h.
Proof.
  intros Hn.
  split; [apply computeKeyId_download|].
  split; [apply computeKeyId_decrypt|].
  split.
  - by rewrite (main_keyId_run _ _ _ _ Hn), (computeKeyId_run _ _ _ _ Hn).
  - by rewrite (returned_main_keyId _ _ _ _ Hn), (returned_computeKeyId _ _ _ _ Hn).
Qed.

Lemma derivations_agree_witness :
  let h := [[x01; x02; x03; x04; x05]] in
  @DownloadWalrus.computeKeyId SpecHex.utils "0xaabbcc" 0 h
    = @UploadWalrus.computeKeyId SpecHex.utils "0xaabbcc" 0 h ∧
  @DecryptSuiData.computeKeyId SpecHex.utils "0xaabbcc" 0 h
    = @UploadWalrus.computeKeyId SpecHex.utils "0xaabbcc" 0 h ∧
  @AllowlistUpload.main_keyId SpecHex.utils "0xaabbcc" 0 h
    = @UploadWalrus.computeKeyId SpecHex.utils "0xaabbcc" 0 h ∧
  returned (@AllowlistUpload.main_keyId SpecHex.utils "0xaabbcc" 0) h
    = returned (@UploadWalrus.computeKeyId SpecHex.utils "0xaabbcc" 0) h.
Proof.
  intros h.
  apply (@derivations_agree SpecHex.utils h "0xaabbcc" 0 [x01; x02; x03; x04; x05]).
  reflexivity.
Defined.

(** ** Different nonces *)

(** C8, as stated, fails: two different nonces of different lengths give
    identifiers of different total lengths.  With the one-byte prefix
    [aa], the nonces [01] and [01 02] give [aa 01] and [aa 01 02]. *)
Lemma distinct_nonces_length_counterexample :
  let h := [[x01]; [x01; x02]] in
  h !! 0 = Some [x01] ∧
  h !! 1 = Some [x01; x02] ∧
  [x01] ≠ [x01; x02] ∧
  returned (@DownloadWalrus.computeKeyId SpecHex.utils "0xaa" 0) h = Ok [xaa; x01] ∧
  returned (@DownloadWalrus.computeKeyId SpecHex.utils "0xaa" 1) h = Ok [xaa; x01; x02] ∧
  length [xaa; x01] ≠ length [xaa; x01; x02].
Proof. repeat split; discriminate. Qed.

(** C8, amended.  For a fixed prefix and two different nonces the two
    identifiers differ; their total lengths are equal exactly when the two
    nonces have the same length. *)
Theorem distinct_nonces_distinct_ids `{SuiUtils}
  (h : heap) (sender : string) (nonce1 nonce2 : ref) (p n1 n2 : bytes) :
  h !! nonce1 = Some n1 →
  h !! nonce2 = Some n2 →
  fromHex (strip0x sender) = Some p →
  n1 ≠ n2 →
  ∃ k1 k2,
    returned (DownloadWalrus.computeKeyId sender nonce1) h = Ok k1 ∧
    returned (DownloadWalrus.computeKeyId sender nonce2) h = Ok k2 ∧
    k1 ≠ k2 ∧
    (length k1 = length k2 ↔ length n1 = length n2).
Proof.
  intros H1 H2 Hp Hne. exists (p ++ n1), (p ++ n2).
  pose proof (returned_computeKeyId h sender _ _ H1) as E1.
  pose proof (returned_computeKeyId h sender _ _ H2) as E2.
  rewrite Hp in E1, E2.
  split; [exact E1|]. split; [exact E2|]. split.
  - intros E. by apply app_inv_head in E.
  - rewrite !length_app. lia.
Qed.

Lemma distinct_nonces_distinct_ids_witness :
  let h := [[x01; x02; x03; x04; x05]; [x01; x02; x03; x04; x06]] in
  ∃ k1 k2,
    returned (@DownloadWalrus.computeKeyId SpecHex.utils "0xaabb" 0) h = Ok k1 ∧
    returned (@DownloadWalrus.computeKeyId SpecHex.utils "0xaabb" 1) h = Ok k2 ∧
    k1 ≠ k2 ∧
    (length k1 = length k2 ↔
     length [x01; x02; x03; x04; x05] = length [x01; x02; x03; x04; x06]).
Proof.
  intros h.
  apply (@distinct_nonces_distinct_ids SpecHex.utils h "0xaabb" 0 1 [xaa; xbb]);
    [reflexivity | reflexivity | reflexivity | discriminate].
Defined.

(** ** Determinism *)

(** C9.  Calling [computeKeyId] twice with identical inputs, the same
    sender string and nonces with the same contents, yields identical
    outputs: whatever else the two stores hold, and also when the second
    call runs in the store the first call left behind. *)
Theorem computeKeyId_deterministic `{SuiUtils}
  (h1 h2 : heap) (sender : string) (nonce1 nonce2 : ref) (n : bytes) :
  h1 !! nonce1 = Some n →
  h2 !! nonce2 = Some n →
  returned (UploadWalrus.computeKeyId sender nonce1) h1
    = returned (UploadWalrus.computeKeyId sender nonce2) h2 ∧
  returned (UploadWalrus.computeKeyId sender nonce1)
      (UploadWalrus.computeKeyId sender nonce1 h1).2
    = returned (UploadWalrus.computeKeyId sender nonce1) h1.
Proof.
  intros H1 H2. split.
  - by rewrite (returned_computeKeyId _ _ _ _ H1), (returned_computeKeyId _ _ _ _ H2).
  - assert (H1' : (UploadWalrus.computeKeyId sender nonce1 h1).2 !! nonce1 = Some n).
    { rewrite (computeKeyId_run _ _ _ _ H1).
      destruct (fromHex (strip0x sender)); [|done]. by apply lookup_app_l_Some. }
    by rewrite (returned_computeKeyId _ _ _ _ H1'), (returned_computeKeyId _ _ _ _ H1).
Qed.

Lemma computeKeyId_deterministic_witness :
  let h1 := [[x01; x02]] in
  let h2 := [[xff]; [x00; x00; x00]; [x01; x02]] in
  returned (@UploadWalrus.computeKeyId SpecHex.utils "0xaabb" 0) h1
    = returned (@UploadWalrus.computeKeyId SpecHex.utils "0xaabb" 2) h2 ∧
  returned (@UploadWalrus.computeKeyId SpecHex.utils "0xaabb" 0)
      (@UploadWalrus.computeKeyId SpecHex.utils "0xaabb" 0 h1).2
    = returned (@UploadWalrus.computeKeyId SpecHex.utils "0xaabb" 0) h1.
Proof.
  intros h1 h2.
  apply (@computeKeyId_deterministic SpecHex.utils h1 h2 "0xaabb" 0 2 [x01; x02]);
    reflexivity.
Defined.

(** ** The hex codec of the spec *)

(** Strings two characters at a time. *)
Lemma string_pairs_ind (P : string → Prop) :
  P EmptyString →
  (∀ c, P (String c EmptyString)) →
  (∀ c d s, P s → P (String c (String d s))) →
  ∀ s, P s.
Proof.
  intros H0 H1 H2 s.
  cut (P s ∧ ∀ c, P (String c s)); [by intros [? _]|].
  induction s as [|d s [IH1 IH2]]; split; auto.
Qed.

(** Decoding succeeds exactly on an even number of hex digits. *)
Lemma fromHex_wellFormed (s : string) :
  is_Some (SpecHex.fromHex s) ↔ Hex.wellFormed s = true.
Proof.
  unfold Hex.wellFormed. induction s as [|c|c d s IH] using string_pairs_ind.
  - split; [done | by eexists].
  - split; [by intros [? ?] | done].
  - cbn [SpecHex.fromHex String.length Nat.even Hex.isHexString].
    unfold Hex.isHexDigit.
    destruct (Hex.digitValue c), (Hex.digitValue d);
      try (split; [by intros [? ?] | by rewrite ?andb_false_r]).
    destruct (SpecHex.fromHex s) as [bs|].
    + split; [intros _ | by eexists]. by apply IH.
    + split; [by intros [? ?]|]. intros Hw. destruct IH as [_ IH].
      by destruct (IH Hw).
Qed.

Lemma fromHex_isHexString (s : string) (bs : bytes) :
  SpecHex.fromHex s = Some bs → Hex.isHexString s = true.
Proof.
  intros E. assert (Hw : Hex.wellFormed s = true) by (apply fromHex_wellFormed; eauto).
  unfold Hex.wellFormed in Hw. by apply andb_true_iff in Hw as [_ ?].
Qed.

(** One byte, encoded and decoded. *)
Lemma hex_byte (b : byte) :
  Hex.digitValue (SpecHex.hexChar (Byte.to_N b / 16)) = Some (Byte.to_N b / 16)%N ∧
  Hex.digitValue (SpecHex.hexChar (Byte.to_N b mod 16)) = Some (Byte.to_N b mod 16)%N ∧
  TypedArray.toUint8 (16 * (Byte.to_N b / 16) + Byte.to_N b mod 16) = b.
Proof. destruct b; vm_compute; done. Qed.

Lemma fromHex_toHex (bs : bytes) : SpecHex.fromHex (SpecHex.toHex bs) = Some bs.
Proof.
  induction bs as [|b bs IH]; [done|].
  cbn [SpecHex.toHex SpecHex.fromHex].
  destruct (hex_byte b) as (-> & -> & ->). by rewrite IH.
Qed.

Lemma toHex_isHexString (bs : bytes) : Hex.isHexString (SpecHex.toHex bs) = true.
Proof. exact (fromHex_isHexString _ _ (fromHex_toHex bs)). Qed.

(** ** The hex decoder of the package *)

Lemma matchPairs_pair (c d : ascii) (s : string) :
  PackageHex.matchPairs (String c (String d s))
  = if Hex.isHexDigit c && Hex.isHexDigit d
    then (c, d) :: PackageHex.matchPairs s
    else PackageHex.matchPairs (String d s).
Proof. reflexivity. Qed.

(** A match takes two characters. *)
Lemma matchPairs_length (s : string) :
  (2 * length (PackageHex.matchPairs s) ≤ String.length s)%nat.
Proof.
  cut ((2 * length (PackageHex.matchPairs s) ≤ String.length s)%nat ∧
       ∀ c, (2 * length (PackageHex.matchPairs (String c s))
             ≤ String.length (String c s))%nat); [by intros [? _]|].
  induction s as [|d s [IH1 IH2]]; [split; [|intros c]; cbn; lia|].
  split; [apply IH2|]. intros c. rewrite matchPairs_pair.
  destruct (Hex.isHexDigit c && Hex.isHexDigit d).
  - cbn [length String.length] in *. lia.
  - specialize (IH2 d). cbn [String.length] in *. lia.
Qed.

Lemma parsePair_digits (c d : ascii) (hi lo : N) :
  Hex.digitValue c = Some hi → Hex.digitValue d = Some lo →
  PackageHex.parsePair (c, d) = (16 * hi + lo)%N.
Proof. intros Hc Hd. unfold PackageHex.parsePair. cbn [fst snd]. by rewrite Hc, Hd. Qed.

(** When the matches cover the string, they are its pairs in order. *)
Lemma matchPairs_full (s : string) :
  (2 * length (PackageHex.matchPairs s) = String.length s)%nat →
  SpecHex.fromHex s
  = Some (TypedArray.toUint8 <$> (PackageHex.parsePair <$> PackageHex.matchPairs s)).
Proof.
  induction s as [|c|c d s IH] using string_pairs_ind; [done | cbn; lia |].
  rewrite matchPairs_pair. cbn [SpecHex.fromHex]. unfold Hex.isHexDigit.
  destruct (Hex.digitValue c) as [hi|] eqn:Ec, (Hex.digitValue d) as [lo|] eqn:Ed;
    cbn [andb].
  2-4: intros E; pose proof (matchPairs_length (String d s));
       cbn [String.length] in *; lia.
  intros E. cbn [length String.length] in E.
  rewrite IH by lia. cbn [fmap list_fmap]. by rewrite (parsePair_digits c d hi lo).
Qed.

(** On a string the pair decoder accepts, the matches are its pairs. *)
Lemma matchPairs_hex (s : string) (bs : bytes) :
  SpecHex.fromHex s = Some bs →
  TypedArray.toUint8 <$> (PackageHex.parsePair <$> PackageHex.matchPairs s) = bs ∧
  (2 * length (PackageHex.matchPairs s) = String.length s)%nat.
Proof.
  revert bs. induction s as [|c|c d s IH] using string_pairs_ind; intros bs.
  - by intros [= <-].
  - done.
  - rewrite matchPairs_pair. cbn [SpecHex.fromHex]. unfold Hex.isHexDigit.
    destruct (Hex.digitValue c) as [hi|] eqn:Ec; [|done].
    destruct (Hex.digitValue d) as [lo|] eqn:Ed; [|done].
    destruct (SpecHex.fromHex s) as [bs'|]; [|done]. intros [= <-].
    destruct (IH bs' eq_refl) as [<- Hlen]. cbn [andb]. split.
    + cbn [fmap list_fmap]. by rewrite (parsePair_digits c d hi lo).
    + cbn [length String.length]. lia.
Qed.

Lemma padded_even (s : string) : Nat.even (String.length (PackageHex.padded s)) = true.
Proof.
  unfold PackageHex.padded. destruct (Nat.even (String.length s)) eqn:E; [done|].
  cbn [String.length]. by rewrite Nat.even_succ, <-Nat.negb_even, E.
Qed.

Lemma padded_isHexString (s : string) :
  Hex.isHexString (PackageHex.padded s) = Hex.isHexString s.
Proof. unfold PackageHex.padded. by destruct (Nat.even _). Qed.

(** The package decodes the text, without its [0x] and with a [0] in
    front when its length is odd, pair by pair. *)
Lemma fromHex_package (s : string) :
  PackageHex.fromHex s = SpecHex.fromHex (PackageHex.padded (strip0x s)).
Proof.
  unfold PackageHex.fromHex.
  change (if JsString.startsWith s "0x" then JsString.slice s 2 else s) with (strip0x s).
  set (q := PackageHex.padded (strip0x s)).
  assert (Hq : (2 * (String.length q / 2) = String.length q)%nat).
  { pose proof (padded_even (strip0x s)) as He. fold q in He.
    apply Nat.even_spec in He as [k ->].
    rewrite (Nat.mul_comm 2 k), Nat.div_mul by lia. lia. }
  destruct (decide _) as [Hlen|Hlen].
  - rewrite length_fmap in Hlen. symmetry. apply matchPairs_full. lia.
  - destruct (SpecHex.fromHex q) as [bs|] eqn:E; [|done].
    apply matchPairs_hex in E as [_ E]. rewrite length_fmap in Hlen. lia.
Qed.

(** The package rejects exactly the texts that hold a character that is
    no hex digit, once the [0x] is removed. *)
Lemma fromHex_package_is_Some (s : string) :
  is_Some (PackageHex.fromHex s) ↔ Hex.isHexString (strip0x s) = true.
Proof.
  rewrite fromHex_package, fromHex_wellFormed. unfold Hex.wellFormed.
  by rewrite padded_even, padded_isHexString.
Qed.

(** ** Malformed input *)

(** C3, as stated, fails: a hex string of odd length is not rejected.
    The sender ["0xabc"] has three digits after its [0x]; with the decoder
    of the package [computeKeyId] returns [0a bc] followed by the nonce. *)
Lemma odd_length_counterexample :
  let h := [[x01; x02; x03; x04; x05]] in
  Nat.odd (String.length (strip0x "0xabc")) = true ∧
  @UploadWalrus.computeKeyId PackageHex.utils "0xabc" 0 h
    = (Ok 2, h ++ [[x0a; xbc]; [x0a; xbc; x01; x02; x03; x04; x05]]) ∧
  returned (@UploadWalrus.computeKeyId PackageHex.utils "0xabc" 0) h
    = Ok [x0a; xbc; x01; x02; x03; x04; x05].
Proof. repeat split. Qed.

(** C3, amended.  With the decoder of the package [computeKeyId] has one
    error condition.  The script removes a leading [0x] and the decoder one
    more; when what is left holds a character that is no hex digit, the call
    throws [MalformedHexInput] and the store is as before: nothing was
    allocated or written.  Otherwise it returns, whatever the length of the
    text: the prefix is the text decoded pair by pair, with a [0] put in
    front when its length is odd, and the store only gains the two fresh
    arrays.  ["0xZZ"] is malformed. *)
Theorem computeKeyId_error_condition
  (h : heap) (sender : string) (nonce : ref) (n : bytes) :
  h !! nonce = Some n →
  (Hex.isHexString (strip0x (strip0x sender)) = false →
   @UploadWalrus.computeKeyId PackageHex.utils sender nonce h
     = (Throw MalformedHexInput, h)) ∧
  (Hex.isHexString (strip0x (strip0x sender)) = true →
   ∃ p, SpecHex.fromHex (PackageHex.padded (strip0x (strip0x sender))) = Some p ∧
        @UploadWalrus.computeKeyId PackageHex.utils sender nonce h
          = (Ok (S (length h)), h ++ [p; p ++ n])) ∧
  @UploadWalrus.computeKeyId PackageHex.utils "0xZZ" nonce h
    = (Throw MalformedHexInput, h).
Proof.
  intros Hn. pose proof (@computeKeyId_run PackageHex.utils h) as Hrun.
  split; [|split].
  - intros Hbad. rewrite (Hrun _ _ _ Hn). cbn [fromHex PackageHex.utils].
    destruct (PackageHex.fromHex (strip0x sender)) eqn:E; [|done].
    assert (Hex.isHexString (strip0x (strip0x sender)) = true)
      by (apply fromHex_package_is_Some; eauto).
    congruence.
  - intros Hhex. apply fromHex_package_is_Some in Hhex as [p Hp]. exists p.
    split; [by rewrite <-fromHex_package|].
    rewrite (Hrun _ _ _ Hn). cbn [fromHex PackageHex.utils]. by rewrite Hp.
  - by rewrite (Hrun _ _ _ Hn).
Qed.

Lemma computeKeyId_error_condition_witness :
  let h := [[x01; x02; x03; x04; x05]] in
  (Hex.isHexString (strip0x (strip0x "0x0xabc")) = false →
   @UploadWalrus.computeKeyId PackageHex.utils "0x0xabc" 0 h
     = (Throw MalformedHexInput, h)) ∧
  (Hex.isHexString (strip0x (strip0x "0x0xabc")) = true →
   ∃ p, SpecHex.fromHex (PackageHex.padded (strip0x (strip0x "0x0xabc"))) = Some p ∧
        @UploadWalrus.computeKeyId PackageHex.utils "0x0xabc" 0 h
          = (Ok (S (length h)), h ++ [p; p ++ [x01; x02; x03; x04; x05]])) ∧
  @UploadWalrus.computeKeyId PackageHex.utils "0xZZ" 0 h
    = (Throw MalformedHexInput, h).
Proof.
  intros h.
  apply (computeKeyId_error_condition h "0x0xabc" 0 [x01; x02; x03; x04; x05]).
  reflexivity.
Defined.

(** ** The test vector *)

(** C6.  For the address made of 32 bytes [aa] and the nonce
    [01 02 03 04 05], lines 165-166 of [main] compute the 37 byte
    identifier [aa .. aa 01 02 03 04 05], and its transport encoding, with
    the encoder of the spec, is 64 times ['a'] followed by
    ["0102030405"]. *)
Theorem main_encryptionId_vector (h : heap) (nonce : ref) :
  h !! nonce = Some [x01; x02; x03; x04; x05] →
  ∃ keyId h',
    @UploadWalrus.main_encryptionId SpecHex.utils
      "0xaaaaaaaaaaaaaaaaaaaaaaaaaaaaaaaaaaaaaaaaaaaaaaaaaaaaaaaaaaaaaaaa" nonce h
    = (Ok (keyId,
           "aaaaaaaaaaaaaaaaaaaaaaaaaaaaaaaaaaaaaaaaaaaaaaaaaaaaaaaaaaaaaaaa0102030405"),
       h') ∧
    h' !! keyId = Some (replicate 32 xaa ++ [x01; x02; x03; x04; x05]) ∧
    length (replicate 32 xaa ++ [x01; x02; x03; x04; x05]) = 37.
Proof.
  intros Hn. exists (S (length h)).
  pose proof (@computeKeyId_run SpecHex.utils h
    "0xaaaaaaaaaaaaaaaaaaaaaaaaaaaaaaaaaaaaaaaaaaaaaaaaaaaaaaaaaaaaaaaa" _ _ Hn) as Hrun.
  change (fromHex (strip0x _)) with (Some (replicate 32 xaa)) in Hrun.
  cbv beta iota in Hrun.
  eexists. split; [|split; [|done]].
  - unfold UploadWalrus.main_encryptionId.
    erewrite bind_Ok by exact Hrun.
    unfold callToHex.
    erewrite bind_Ok; cycle 1.
    { erewrite bind_Ok; [reflexivity|]. apply read_Ok.
      rewrite lookup_app_r by lia.
      by replace (S (length h) - length h) with 1 by lia. }
    reflexivity.
  - rewrite lookup_app_r by lia.
    by replace (S (length h) - length h) with 1 by lia.
Qed.

Lemma main_encryptionId_vector_witness :
  ∃ keyId h',
    @UploadWalrus.main_encryptionId SpecHex.utils
      "0xaaaaaaaaaaaaaaaaaaaaaaaaaaaaaaaaaaaaaaaaaaaaaaaaaaaaaaaaaaaaaaaa" 0
      [[x01; x02; x03; x04; x05]]
    = (Ok (keyId,
           "aaaaaaaaaaaaaaaaaaaaaaaaaaaaaaaaaaaaaaaaaaaaaaaaaaaaaaaaaaaaaaaa0102030405"),
       h') ∧
    h' !! keyId = Some (replicate 32 xaa ++ [x01; x02; x03; x04; x05]) ∧
    length (replicate 32 xaa ++ [x01; x02; x03; x04; x05]) = 37.
Proof.
  apply (main_encryptionId_vector [[x01; x02; x03; x04; x05]] 0). reflexivity.
Defined.

(** ** The identifier of an encrypted object *)

(** C4.  Round trip, for every Seal SDK that keeps the guarantee of the
    spec and with the codec of the spec: when the service answers [out] to
    a request that carries the identifier [idHex], the extraction of
    [downloadAndDecrypt] applied to [out] returns the bytes [idHex] decodes
    to. *)
Theorem extractKeyId_recovers_identifier
  (sdk : @SealSdk SpecHex.utils) (h : heap)
  (threshold : nat) (packageId idHex : string) (data out kid : bytes) :
  SpecHex.fromHex idHex = Some kid →
  @encrypts SpecHex.utils sdk threshold packageId idHex data out →
  returned (@DownloadWalrus.extractKeyId SpecHex.utils sdk out) h = Ok kid.
Proof.
  intros Hkid Henc.
  destruct (@parse_encrypts SpecHex.utils sdk _ _ _ _ _ Henc) as (obj & Hparse & Hid).
  assert (Hback : ∀ keyIdHex,
    SpecHex.fromHex keyIdHex = Some kid →
    returned (@callFromHex SpecHex.utils
                (if JsString.startsWith keyIdHex "0x"
                 then JsString.slice keyIdHex 2 else keyIdHex)) (h ++ [out])
    = Ok kid).
  { intros keyIdHex E.
    change (if JsString.startsWith keyIdHex "0x"
            then JsString.slice keyIdHex 2 else keyIdHex) with (strip0x keyIdHex).
    rewrite (strip0x_hex _ (fromHex_isHexString _ _ E)).
    unfold returned, callFromHex. cbn [fromHex SpecHex.utils]. rewrite E.
    unfold TypedArray.alloc. by rewrite lookup_last. }
  unfold returned, DownloadWalrus.extractKeyId.
  erewrite bind_Ok by reflexivity.
  erewrite bind_Ok by apply read_Ok, lookup_last.
  rewrite Hparse.
  destruct Hid as [-> | (b & -> & Hb)].
  - by apply Hback.
  - cbn [fromHex SpecHex.utils] in Hb. assert (b = kid) as -> by congruence.
    apply Hback, fromHex_toHex.
Qed.

Lemma extractKeyId_recovers_identifier_witness :
  returned
    (@DownloadWalrus.extractKeyId SpecHex.utils FramedSeal.sdk
       [x03; xaa; xbb; x01; x10; x20]) []
  = Ok [xaa; xbb; x01].
Proof.
  apply (extractKeyId_recovers_identifier (@FramedSeal.sdk SpecHex.utils) []
           2 "0x2" "aabb01" [x10; x20]).
  - reflexivity.
  - exists [xaa; xbb; x01]. split; reflexivity.
Defined.

(** ** Downloading a blob *)

Section Download.
Import DownEncryptedKey.
Implicit Types (env : Env) (t : list Event) (blobId : string).

(** The loop never throws and never ends the process; it returns [null]
    exactly when every attempt failed, and only writes to the console. *)
Lemma downloadLoop_returns env aggregators blobId t :
  ∃ r ev,
    downloadLoop env aggregators blobId t = (Return r, t ++ ev) ∧
    (r = None ↔ allFail env aggregators blobId = true) ∧
    Forall (λ e, isFsEvent e = false) ev.
Proof.
  revert t. induction aggregators as [|aggregator rest IH]; intros t.
  { exists None, []. by rewrite app_nil_r. }
  cbn [downloadLoop allFail forallb attemptFails].
  unfold callFetch, mbind, IO_bind, tryCatch, emit, arrayBuffer, raise, mret, IO_ret.
  destruct (fetch env _) as [status [buf|]|]; cbn; try destruct (ok status); cbn.
  all: rewrite <-?app_assoc; cbn [app].
  all: try (eexists (Some buf), _; split; [reflexivity|];
            split; [done | by repeat constructor]).
  all: match goal with
       | |- context [downloadLoop _ _ _ ?t1] =>
           destruct (IH t1) as (r & ev & -> & Hr & Hev)
       end.
  all: rewrite <-?app_assoc; cbn [app]; do 2 eexists; split; [reflexivity|].
  all: split; [exact Hr | by repeat constructor].
Qed.

Lemma downloadBlobFromWalrus_returns env blobId t :
  ∃ r ev,
    downloadBlobFromWalrus env blobId t = (Return r, t ++ ev) ∧
    (r = None ↔ allFail env WALRUS_AGGREGATOR_URLS blobId = true) ∧
    Forall (λ e, isFsEvent e = false) ev.
Proof. apply downloadLoop_returns. Qed.

(** C10.  When every aggregator answers with a status that is not OK,
    times out or errors, [downloadBlobFromWalrus] returns [null]: it does
    not throw.  The script then reports that the file may have been
    deleted after its storage epoch and ends with exit code 1; it raises
    no exception and creates or writes no file. *)
Theorem download_null_is_expected_failure env blobId t :
  allFail env WALRUS_AGGREGATOR_URLS blobId = true →
  (∃ ev, downloadBlobFromWalrus env blobId t = (Return None, t ++ ev)) ∧
  (∃ ev, run env blobId t = (Exit 1, t ++ ev ++ [ConsoleError errorMsg]) ∧
         Forall (λ e, isFsEvent e = false) ev).
Proof.
  intros Hfail. split.
  - destruct (downloadBlobFromWalrus_returns env blobId t) as (r & ev & E & Hr & _).
    apply Hr in Hfail as ->. eauto.
  - unfold run, main, tryCatch, mbind, IO_bind, emit.
    match goal with
    | |- context [downloadBlobFromWalrus _ _ ?t1] =>
        destruct (downloadBlobFromWalrus_returns env blobId t1)
          as (r & ev & -> & Hr & Hev)
    end.
    apply Hr in Hfail as ->. cbn.
    rewrite <-!app_assoc. cbn [app].
    eexists (_ :: _ :: ev). split.
    + cbn [app]. reflexivity.
    + by repeat constructor.
Qed.

Lemma download_null_is_expected_failure_witness :
  let env := {| fetch := λ _, Response 404 None;
                existsSync := λ _, false;
                fsThrows := λ _, false;
                outputDir := "tmp/walrus/encrypted";
                pathJoin := λ a b, a +:+ "/" +:+ b |} in
  (∃ ev, downloadBlobFromWalrus env "blob" [] = (Return None, [] ++ ev)) ∧
  (∃ ev, run env "blob" [] = (Exit 1, [] ++ ev ++ [ConsoleError errorMsg]) ∧
         Forall (λ e, isFsEvent e = false) ev).
Proof.
  intros env. apply (download_null_is_expected_failure env "blob" []).
  reflexivity.
Defined.

End Download.

(** * Further properties *)

(** ** computeKeyId and the store *)

(** X1.  [computeKeyId] never writes to an array that exists when it is
    called, the nonce included.  When it returns, the store has gained
    exactly two arrays; when it throws, the error is [MalformedHexInput]
    and the store is as before. *)
Theorem computeKeyId_frame `{SuiUtils}
  (h : heap) (sender : string) (nonce : ref) (n : bytes) :
  h !! nonce = Some n →
  ∃ r h',
    UploadWalrus.computeKeyId sender nonce h = (r, h') ∧
    (∀ a bs, h !! a = Some bs → h' !! a = Some bs) ∧
    match r with
    | Ok _ => length h' = length h + 2
    | Throw e => e = MalformedHexInput ∧ h' = h
    end.
Proof.
  intros Hn. rewrite (computeKeyId_run _ _ _ _ Hn).
  destruct (fromHex (strip0x sender)) as [p|]; do 2 eexists; split; try reflexivity.
  - split; [intros a bs Ha; by apply lookup_app_l_Some|].
    rewrite length_app. reflexivity.
  - done.
Qed.

Lemma computeKeyId_frame_witness :
  ∃ r h',
    @UploadWalrus.computeKeyId SpecHex.utils "0xaabb" 1 [[xff]; [x01; x02]] = (r, h') ∧
    (∀ a bs, [[xff]; [x01; x02]] !! a = Some bs → h' !! a = Some bs) ∧
    match r with
    | Ok _ => length h' = length [[xff]; [x01; x02]] + 2
    | Throw e => e = MalformedHexInput ∧ h' = [[xff]; [x01; x02]]
    end.
Proof.
  apply (@computeKeyId_frame SpecHex.utils [[xff]; [x01; x02]] "0xaabb" 1 [x01; x02]).
  reflexivity.
Defined.

(** X2.  The identifier does not record where the prefix ends: bytes
    moved from the end of the prefix to the front of the nonce give the
    same identifier. *)
Theorem identifier_boundary_shift `{SuiUtils}
  (h : heap) (s1 s2 : string) (nonce1 nonce2 : ref) (p a n : bytes) :
  fromHex (strip0x s1) = Some (p ++ a) →
  fromHex (strip0x s2) = Some p →
  h !! nonce1 = Some n →
  h !! nonce2 = Some (a ++ n) →
  returned (UploadWalrus.computeKeyId s1 nonce1) h
    = returned (UploadWalrus.computeKeyId s2 nonce2) h.
Proof.
  intros H1 H2 Hn1 Hn2.
  rewrite (returned_computeKeyId _ _ _ _ Hn1), (returned_computeKeyId _ _ _ _ Hn2).
  by rewrite H1, H2, app_assoc.
Qed.

Lemma identifier_boundary_shift_witness :
  returned (@UploadWalrus.computeKeyId SpecHex.utils "0xaabb" 0) [[x01]; [xbb; x01]]
    = returned (@UploadWalrus.computeKeyId SpecHex.utils "0xaa" 1) [[x01]; [xbb; x01]].
Proof.
  apply (@identifier_boundary_shift SpecHex.utils [[x01]; [xbb; x01]]
           "0xaabb" "0xaa" 0 1 [xaa] [xbb] [x01]); reflexivity.
Defined.

(** X3.  For prefixes of one length the identifier determines the prefix
    and the nonce: two calls return the same bytes exactly when both the
    prefixes and the nonces are the same. *)
Theorem identifier_injective_fixed_length `{SuiUtils}
  (h : heap) (s1 s2 : string) (nonce1 nonce2 : ref) (p1 p2 n1 n2 : bytes) :
  fromHex (strip0x s1) = Some p1 →
  fromHex (strip0x s2) = Some p2 →
  h !! nonce1 = Some n1 →
  h !! nonce2 = Some n2 →
  length p1 = length p2 →
  returned (UploadWalrus.computeKeyId s1 nonce1) h
    = returned (UploadWalrus.computeKeyId s2 nonce2) h
  ↔ p1 = p2 ∧ n1 = n2.
Proof.
  intros H1 H2 Hn1 Hn2 Hlen.
  rewrite (returned_computeKeyId _ _ _ _ Hn1), (returned_computeKeyId _ _ _ _ Hn2).
  rewrite H1, H2. split.
  - intros E. injection E as E. by apply app_inj_1 in E.
  - by intros [-> ->].
Qed.

Lemma identifier_injective_fixed_length_witness :
  returned (@UploadWalrus.computeKeyId SpecHex.utils "0xaabb" 0) [[x01]; [x02]]
    = returned (@UploadWalrus.computeKeyId SpecHex.utils "0xaacc" 1) [[x01]; [x02]]
  ↔ [xaa; xbb] = [xaa; xcc] ∧ [x01] = [x02].
Proof.
  apply (@identifier_injective_fixed_length SpecHex.utils [[x01]; [x02]]
           "0xaabb" "0xaacc" 0 1); reflexivity.
Defined.

(** ** The blob download script *)

Section DownloadMore.
Import DownEncryptedKey.
Implicit Types (env : Env) (t : list Event) (blobId : string).

(** An aggregator that fails only adds console lines, and the loop goes
    on with the rest. *)
Lemma downloadLoop_skip env aggregator blobId t :
  attemptFails (fetch env (aggregator +:+ "/v1/blobs/" +:+ blobId)) = true →
  ∃ ev, ∀ rest,
    downloadLoop env (aggregator :: rest) blobId t
    = downloadLoop env rest blobId (t ++ ev).
Proof.
  intros Hfail. cbn [downloadLoop].
  unfold callFetch, mbind, IO_bind, tryCatch, emit, arrayBuffer, raise, mret, IO_ret.
  destruct (fetch env _) as [status [buf|]|]; cbn in *; try destruct (ok status);
    cbn in *; try discriminate.
  all: eexists; intros rest; rewrite <-?app_assoc; cbn [app]; reflexivity.
Qed.

(** The first aggregator that delivers decides the result, whatever
    follows it in the list. *)
Lemma downloadLoop_first env (before : list string)
  (aggregator : string) blobId t (status : nat) (buf : bytes) :
  allFail env before blobId = true →
  fetch env (aggregator +:+ "/v1/blobs/" +:+ blobId) = Response status (Some buf) →
  ok status = true →
  ∃ ev, ∀ after,
    downloadLoop env (before ++ aggregator :: after) blobId t
      = (Return (Some buf), t ++ ev).
Proof.
  intros Hfail Hfetch Hok. revert t.
  induction before as [|b before IH]; intros t.
  - eexists. intros after. cbn [app downloadLoop].
    unfold callFetch, mbind, IO_bind, tryCatch, emit, arrayBuffer, raise, mret, IO_ret.
    rewrite Hfetch. cbn. rewrite Hok. cbn.
    by rewrite <-app_assoc.
  - cbn [allFail forallb] in Hfail. apply andb_true_iff in Hfail as [Hb Hrest].
    destruct (downloadLoop_skip env b blobId t Hb) as (ev & Hskip).
    destruct (IH Hrest (t ++ ev)) as (ev' & E).
    exists (ev ++ ev'). intros after. cbn [app]. by rewrite Hskip, E, app_assoc.
Qed.

(** X4.  The list of aggregators is a priority order: the loop returns
    the body of the first aggregator that answers OK with a readable body,
    and what comes after it in the list changes neither the result nor
    the console output. *)
Theorem downloadLoop_first_success env (before after : list string)
  (aggregator : string) blobId t (status : nat) (buf : bytes) :
  allFail env before blobId = true →
  fetch env (aggregator +:+ "/v1/blobs/" +:+ blobId) = Response status (Some buf) →
  ok status = true →
  ∃ ev,
    downloadLoop env (before ++ aggregator :: after) blobId t
      = (Return (Some buf), t ++ ev) ∧
    downloadLoop env (before ++ [aggregator]) blobId t
      = (Return (Some buf), t ++ ev).
Proof.
  intros Hfail Hfetch Hok.
  destruct (downloadLoop_first env before aggregator blobId t status buf
              Hfail Hfetch Hok) as (ev & Hev).
  exists ev. split; [apply Hev | apply (Hev [])].
Qed.

Lemma downloadLoop_first_success_witness :
  let env := {| fetch := λ url,
                  if String.eqb url "https://a/v1/blobs/blob"
                  then Response 503 None else Response 200 (Some [x01; x02]);
                existsSync := λ _, true;
                fsThrows := λ _, false;
                outputDir := "out";
                pathJoin := λ a b, a +:+ "/" +:+ b |} in
  ∃ ev,
    downloadLoop env (["https://a"] ++ "https://b" :: ["https://c"]) "blob" []
      = (Return (Some [x01; x02]), [] ++ ev) ∧
    downloadLoop env (["https://a"] ++ ["https://b"]) "blob" []
      = (Return (Some [x01; x02]), [] ++ ev).
Proof.
  intros env.
  apply (downloadLoop_first_success env ["https://a"] ["https://c"] "https://b"
           "blob" [] 200 [x01; x02]); reflexivity.
Defined.


Ltac forall_events :=
  repeat match goal with
         | |- Forall _ [] => apply Forall_nil_2
         | |- Forall _ (_ :: _) => apply Forall_cons_2; [done|]
         | |- Forall _ (_ ++ _) => apply Forall_app_2; [assumption|]
         end.



(** X6.  When the download succeeds and the file system calls do not
    throw, the script touches the file system in one way only: it creates
    the output directory when that does not exist, and right after it
    writes one file holding exactly the bytes the aggregator delivered.
    The path of the file is what [path.join] makes of the output directory
    and of [encrypted_], the first eight code units of the blob id and
    [.bin]; the blob id is used as it is. *)
Theorem run_writes_downloaded_bytes env blobId t
  (before after : list string) (aggregator : string) (status : nat) (buf : bytes) :
  WALRUS_AGGREGATOR_URLS = before ++ aggregator :: after →
  allFail env before blobId = true →
  fetch env (aggregator +:+ "/v1/blobs/" +:+ blobId) = Response status (Some buf) →
  ok status = true →
  fsOk env blobId = true →
  ∃ pre post,
    run env blobId t
    = (Return tt,
       t ++ pre
         ++ (if existsSync env (outputDir env) then [] else [Mkdir (outputDir env)])
         ++ WriteFile
              (pathJoin env (outputDir env)
                 ("encrypted_" +:+ String.substring 0 8 blobId +:+ ".bin"))
              buf
            :: post) ∧
    Forall (λ e, isFsEvent e = false) pre ∧
    Forall (λ e, isFsEvent e = false) post.
Proof.
  intros Hurls Hfail Hfetch Hok Hfs.
  unfold run, main, tryCatch, mbind, IO_bind, emit.
  match goal with
  | |- context [downloadBlobFromWalrus _ _ ?t1] =>
      destruct (downloadBlobFromWalrus_returns env blobId t1) as (r & ev & E & _ & Hev);
      destruct (downloadLoop_first env before aggregator blobId t1 status buf
                  Hfail Hfetch Hok) as (ev' & E')
  end.
  specialize (E' after).
  rewrite <-Hurls in E'. unfold downloadBlobFromWalrus in *.
  rewrite E in E'. injection E' as -> <-%app_inv_head. rewrite E.
  unfold fsOk, outputPath in *. unfold fsCall, raise, emit, exit, mret, IO_ret.
  destruct (existsSync env _), (fsThrows env (outputDir env)),
    (fsThrows env (pathJoin env _ _)); try discriminate Hfs; cbn.
  all: rewrite <-?app_assoc; cbn [app].
  all: eexists ([_; _] ++ ev ++ [_]); eexists [_; _; _].
  all: rewrite <-?app_assoc; cbn [app]; split; [reflexivity|].
  all: split; forall_events.
Qed.

Lemma run_writes_downloaded_bytes_witness :
  let env := {| fetch := λ _, Response 200 (Some [x01; x02]);
                existsSync := λ _, false;
                fsThrows := λ _, false;
                outputDir := "out";
                pathJoin := λ a b, a +:+ "/" +:+ b |} in
  ∃ pre post,
    run env "0123456789" []
    = (Return tt,
       [] ++ pre
          ++ (if existsSync env (outputDir env) then [] else [Mkdir (outputDir env)])
          ++ WriteFile
               (pathJoin env (outputDir env)
                  ("encrypted_" +:+ String.substring 0 8 "0123456789" +:+ ".bin"))
               [x01; x02]
             :: post) ∧
    Forall (λ e, isFsEvent e = false) pre ∧
    Forall (λ e, isFsEvent e = false) post.
Proof.
  intros env.
  apply (run_writes_downloaded_bytes env "0123456789" [] []
           [] "https://aggregator.walrus-testnet.walrus.space" 200 [x01; x02]);
    reflexivity.
Defined.

End DownloadMore.

(** ** The answer of the publisher *)

Section StorageInfo.
Import Js UploadWalrusStore.

Lemma get_bind {B} (v : value) (k : string) (f : value → res B) :
  get v k ≫= f = if nullish v then Thrown TypeError else f (optGet v k).
Proof. by destruct v. Qed.

Lemma has_Obj (k : string) (props : list (string * value)) :
  has k (Obj props) = Done (bool_decide (is_Some (lookup k props))).
Proof. reflexivity. Qed.

Lemma bind_Done {A B} (a : A) (f : A → res B) : Done a ≫= f = f a.
Proof. reflexivity. Qed.

(** X7.  When the answer has an [alreadyCertified] entry, the result is
    computed from that entry alone and reports ["Already certified"]:
    whatever else the answer holds, a [newlyCreated] entry included, is
    ignored.  When the entry or its [event] is [null] or missing, the call
    throws a [TypeError]; it does not fall back to [newlyCreated]. *)
Theorem extractBlobInfo_already_certified
  (props : list (string * value)) (a : value) :
  lookup "alreadyCertified" props = Some a →
  extractBlobInfo (Obj props) =
    if nullish a || nullish (optGet a "event") then Thrown TypeError
    else Done {| blobId := optGet a "blobId";
                 endEpoch := optGet a "endEpoch";
                 suiRefType := "Previous Sui Certified Event";
                 suiRef := optGet (optGet a "event") "txDigest";
                 status := "Already certified" |}.
Proof.
  intros Ha. unfold extractBlobInfo.
  rewrite !has_Obj, !bind_Done, Ha, bool_decide_true by eauto.
  rewrite !get_bind. cbn [nullish optGet]. rewrite Ha.
  change (default Undefined (Some a)) with a.
  by destruct (nullish a), (nullish (optGet a "event")).
Qed.

Lemma extractBlobInfo_already_certified_witness :
  let a := Obj [("blobId", Str "b1"); ("endEpoch", Num 7);
                ("event", Obj [("txDigest", Str "d1")])] in
  extractBlobInfo (Obj [("newlyCreated", Null); ("alreadyCertified", a)]) =
    if nullish a || nullish (optGet a "event") then Thrown TypeError
    else Done {| blobId := optGet a "blobId";
                 endEpoch := optGet a "endEpoch";
                 suiRefType := "Previous Sui Certified Event";
                 suiRef := optGet (optGet a "event") "txDigest";
                 status := "Already certified" |}.
Proof.
  intros a.
  apply (extractBlobInfo_already_certified
           [("newlyCreated", Null); ("alreadyCertified", a)] a).
  reflexivity.
Defined.

(** X8.  [extractBlobInfo] throws ["Unhandled successful response!"]
    exactly when the answer is an array or an object with neither an
    [alreadyCertified] nor a [newlyCreated] entry; every other failure is a
    [TypeError]. *)
Theorem extractBlobInfo_unhandled (storageInfo : value) (msg : string) :
  extractBlobInfo storageInfo = Thrown (Error msg) ↔
  msg = "Unhandled successful response!" ∧
  ((∃ items, storageInfo = Arr items) ∨
   (∃ props, storageInfo = Obj props ∧
             lookup "alreadyCertified" props = None ∧
             lookup "newlyCreated" props = None)).
Proof.
  split.
  - destruct storageInfo as [| | | | |items|props]; try discriminate.
    + cbn. intros [= <-]. eauto.
    + unfold extractBlobInfo. rewrite !has_Obj, !bind_Done.
      destruct (lookup "alreadyCertified" props) as [a|] eqn:Ea.
      { rewrite bool_decide_true by eauto. rewrite !get_bind. cbn [nullish].
        repeat (rewrite ?get_bind; destruct (nullish _); [done|]). done. }
      rewrite bool_decide_false by by intros [? ?].
      destruct (lookup "newlyCreated" props) as [n|] eqn:En.
      { rewrite bool_decide_true by eauto. rewrite !get_bind. cbn [nullish].
        repeat (rewrite ?get_bind; destruct (nullish _); [done|]). done. }
      rewrite bool_decide_false by by intros [? ?].
      intros [= <-]. split; [done|]. right. eauto.
  - intros [-> [[items ->] | (props & -> & Ea & En)]]; [done|].
    unfold extractBlobInfo. rewrite !has_Obj, !bind_Done, Ea.
    rewrite bool_decide_false by by intros [? ?].
    by rewrite En, bool_decide_false by by intros [? ?].
Qed.

End StorageInfo.

(** ** The caps of an account *)

Section Caps.
Import Js CheckAllowlist.

(** A falsy value has no properties. *)
Lemma optGet_falsy (v : value) (k : string) : truthy v = false → optGet v k = Undefined.
Proof. by destruct v. Qed.

(** On an owned object that is not [null] or [undefined], the callbacks of
    [map] and [filter] together compute [capSpec]: the guards on [content]
    and [fields] only remove objects the filter removes too, and the
    fallback [fields.allowlist_id.id] never provides a value. *)
Lemma capOf_spec (obj : value) :
  nullish obj = false →
  ∃ item, capOf obj = Done item ∧ (if keep item then item else None) = capSpec obj.
Proof.
  intros Hobj. unfold capOf. rewrite get_bind, Hobj.
  unfold capSpec, fieldsOf.
  set (content := optGet (optGet obj "data") "content").
  assert (Hundef : ∀ c, optGet c "fields" = Undefined →
    (if truthy (or (optGet (optGet (optGet c "fields") "id") "id")
                   (optGet (optGet c "fields") "id"))
        && truthy (optGet (optGet c "fields") "allowlist_id")
     then Some {| cap_id := or (optGet (optGet (optGet c "fields") "id") "id")
                               (optGet (optGet c "fields") "id");
                  allowlist_id := optGet (optGet c "fields") "allowlist_id" |}
     else None) = None).
  { by intros c ->. }
  destruct content as [| |b|x|s|items|props] eqn:Ec;
    try (eexists; split; [reflexivity|]; symmetry; by apply Hundef).
  - destruct (truthy (Bool b)); eexists; (split; [reflexivity|]);
      symmetry; by apply Hundef.
  - destruct (truthy (Num x)); eexists; (split; [reflexivity|]);
      symmetry; by apply Hundef.
  - destruct (truthy (Str s)); eexists; (split; [reflexivity|]);
      symmetry; by apply Hundef.
  - cbn [truthy isObjectType negb orb]. rewrite has_Obj, bind_Done.
    destruct (lookup "fields" props) as [fields|] eqn:Ef.
    + rewrite bool_decide_true by eauto. cbn [negb]. rewrite get_bind. cbn [nullish optGet].
      rewrite Ef. change (default Undefined (Some fields)) with fields.
      eexists; split; [reflexivity|]. cbn [keep cap_id allowlist_id].
      set (a := optGet fields "allowlist_id").
      destruct (truthy a) eqn:Ha.
      * replace (or a (optGet a "id")) with a by (unfold or; by rewrite Ha).
        by rewrite Ha.
      * replace (or a (optGet a "id")) with Undefined
          by (unfold or; by rewrite Ha, (optGet_falsy a "id" Ha)).
        cbn [truthy]. by rewrite !andb_false_r.
    + rewrite bool_decide_false by by intros [? ?]. cbn [negb].
      eexists; split; [reflexivity|]. symmetry. apply Hundef. cbn. by rewrite Ef.
Qed.

Lemma mapThrowing_capOf (data : list value) :
  forallb (λ obj, negb (nullish obj)) data = true →
  ∃ items, mapThrowing capOf data = Done items ∧
           omap (λ item, if keep item then item else None) items = omap capSpec data.
Proof.
  induction data as [|obj data IH]; intros Hall; [by exists []|].
  cbn [forallb] in Hall. apply andb_true_iff in Hall as [Hobj Hall].
  apply negb_true_iff in Hobj.
  destruct (capOf_spec obj Hobj) as (item & E & Hitem).
  destruct (IH Hall) as (items & E' & Hitems).
  exists (item :: items). cbn [mapThrowing]. rewrite E, bind_Done, E', bind_Done.
  split; [done|]. cbn [omap list_omap]. by rewrite Hitem, Hitems.
Qed.

Lemma mapThrowing_nullish (data : list value) :
  forallb (λ obj, negb (nullish obj)) data = false →
  mapThrowing capOf data = Thrown TypeError.
Proof.
  induction data as [|obj data IH]; intros Hall; [done|].
  cbn [forallb] in Hall. cbn [mapThrowing].
  destruct (nullish obj) eqn:Hobj.
  - unfold capOf. by rewrite get_bind, Hobj.
  - destruct (capOf_spec obj Hobj) as (item & -> & _). rewrite bind_Done.
    by rewrite IH.
Qed.

(** Every cap [getAllCaps] returns has passed its filter. *)
Lemma getAllCaps_kept (data : list value) (caps : list Cap) :
  getAllCaps data = Done caps →
  Forall (λ c, truthy (cap_id c) = true ∧ truthy (allowlist_id c) = true) caps.
Proof.
  unfold getAllCaps. destruct (mapThrowing capOf data) as [items|]; [|done].
  rewrite bind_Done. intros [= <-]. apply Forall_forall. intros c Hc.
  apply list_elem_of_omap in Hc as (item & _ & Hitem).
  destruct (keep item) eqn:Hkeep; [|done]. subst item.
  by apply andb_true_iff in Hkeep.
Qed.

(** X9.  [getAllCaps] keeps, in the order of the answer, exactly the
    owned objects whose [fields] have a truthy id ([fields.id.id], else
    [fields.id]) and a truthy [allowlist_id]; objects without [data],
    [content] or [fields] are skipped without an error, and the
    [allowlist_id] of a kept cap is always [fields.allowlist_id] itself.
    The call throws, a [TypeError], exactly when an entry of the answer is
    [null] or [undefined]. *)
Theorem getAllCaps_spec (data : list value) :
  getAllCaps data =
    if forallb (λ obj, negb (nullish obj)) data
    then Done (omap capSpec data)
    else Thrown TypeError.
Proof.
  unfold getAllCaps.
  destruct (forallb _ data) eqn:Hall.
  - destruct (mapThrowing_capOf data Hall) as (items & -> & <-). reflexivity.
  - by rewrite (mapThrowing_nullish data Hall).
Qed.

Lemma filter_first {A} (P : A → Prop) `{!∀ x, Decision (P x)} (l : list A) :
  match filter P l with
  | [] => Forall (λ x, ¬ P x) l
  | y :: _ => ∃ pre post, l = pre ++ y :: post ∧ Forall (λ x, ¬ P x) pre ∧ P y
  end.
Proof.
  induction l as [|x l IH]; [by constructor|].
  rewrite filter_cons. destruct (decide (P x)) as [Hx|Hx].
  - by exists [], l.
  - destruct (filter P l) as [|y ?]; [by constructor|].
    destruct IH as (pre & post & -> & Hpre & Hy).
    exists (x :: pre), post. split; [done|]. split; [by constructor | done].
Qed.

Lemma matches_spec (allowlistId : string) (c : Cap) :
  matches allowlistId c = true ↔ allowlist_id c = Str allowlistId.
Proof.
  unfold matches. destruct (allowlist_id c); try (split; [discriminate | done]).
  rewrite String.eqb_eq. split; [by intros -> | by intros [= ->]].
Qed.

(** X10.  [findCapForAllowlist] returns the id of the first cap, in the
    order of [getAllCaps], whose [allowlist_id] is the string asked for,
    and [null] exactly when no cap has it.  An id it returns is truthy, so
    the caller's test [!capId] only recognises [null]. *)
Theorem findCapForAllowlist_first
  (data : list value) (allowlistId : string) (caps : list Cap) :
  getAllCaps data = Done caps →
  match findCapForAllowlist data allowlistId with
  | Done None => Forall (λ c, allowlist_id c ≠ Str allowlistId) caps
  | Done (Some capId) =>
      ∃ pre c post,
        caps = pre ++ c :: post ∧
        Forall (λ c', allowlist_id c' ≠ Str allowlistId) pre ∧
        allowlist_id c = Str allowlistId ∧
        cap_id c = capId ∧
        truthy capId = true
  | Thrown _ => False
  end.
Proof.
  intros Hcaps. unfold findCapForAllowlist. rewrite Hcaps, bind_Done.
  pose proof (filter_first (λ item, matches allowlistId item = true) caps) as Hf.
  destruct (filter _ caps) as [|first ?].
  - eapply Forall_impl; [exact Hf|]. intros c Hc. by rewrite <-matches_spec.
  - destruct Hf as (pre & post & -> & Hpre & Hfirst).
    exists pre, first, post. split; [done|]. split.
    { eapply Forall_impl; [exact Hpre|]. intros c Hc. by rewrite <-matches_spec. }
    split; [by apply matches_spec|]. split; [done|].
    apply getAllCaps_kept in Hcaps.
    apply Forall_app in Hcaps as [_ Hcaps].
    by apply Forall_cons in Hcaps as [[? _] _].
Qed.

Lemma findCapForAllowlist_first_witness :
  let cap (i a : string) :=
    Obj [("data", Obj [("content", Obj [("fields",
           Obj [("id", Obj [("id", Str i)]); ("allowlist_id", Str a)])])])] in
  let data := [cap "0xc1" "0xa1"; Obj []; cap "0xc2" "0xa2"; cap "0xc3" "0xa2"] in
  let caps := [ {| cap_id := Str "0xc1"; allowlist_id := Str "0xa1" |};
                {| cap_id := Str "0xc2"; allowlist_id := Str "0xa2" |};
                {| cap_id := Str "0xc3"; allowlist_id := Str "0xa2" |} ] in
  match findCapForAllowlist data "0xa2" with
  | Done None => Forall (λ c, allowlist_id c ≠ Str "0xa2") caps
  | Done (Some capId) =>
      ∃ pre c post,
        caps = pre ++ c :: post ∧
        Forall (λ c', allowlist_id c' ≠ Str "0xa2") pre ∧
        allowlist_id c = Str "0xa2" ∧
        cap_id c = capId ∧
        truthy capId = true
  | Thrown _ => False
  end.
Proof.
  intros cap data caps.
  apply (findCapForAllowlist_first data "0xa2" caps). reflexivity.
Defined.

End Caps.

(** ** Decrypting a stored record *)

(** [new Uint8Array(xs)] allocates the numbers as bytes. *)
Lemma from_run (xs : list N) (h : heap) :
  TypedArray.from xs h = (Ok (length h), h ++ [TypedArray.toUint8 <$> xs]).
Proof. reflexivity. Qed.

Lemma toUint8_bytes (n : bytes) : TypedArray.toUint8 <$> (Byte.to_N <$> n) = n.
Proof.
  rewrite <-list_fmap_compose. rewrite <-(list_fmap_id n) at 2.
  apply list_fmap_ext. intros _ b _. apply toUint8_to_N.
Qed.

(** X11.  The identifier made at encryption time from the sender and the
    nonce is made again at decryption time from the stored record: with
    the sender as [creator] and the nonce bytes stored as numbers,
    [decryptPData] computes the same bytes, whatever the store holds, and
    the hex text it prints is the encoding of these bytes. *)
Theorem stored_record_recomputes_identifier `{SuiUtils}
  (h0 h : heap) (sender : string) (nonce : ref) (n k : bytes) :
  h0 !! nonce = Some n →
  returned (UploadWalrus.computeKeyId sender nonce) h0 = Ok k →
  ∃ keyId h',
    DecryptPData.keyIdOfRecord sender (Byte.to_N <$> n) h
      = (Ok (keyId, toHex k), h') ∧
    h' !! keyId = Some k.
Proof.
  intros Hn Hk. rewrite (returned_computeKeyId _ _ _ _ Hn) in Hk.
  destruct (fromHex (strip0x sender)) as [p|] eqn:Hp; [|done].
  injection Hk as <-.
  unfold DecryptPData.keyIdOfRecord.
  erewrite bind_Ok by apply from_run.
  erewrite bind_Ok; cycle 1.
  { unfold callToHex. erewrite bind_Ok by apply read_Ok, lookup_last. reflexivity. }
  erewrite bind_Ok by apply from_run.
  rewrite toUint8_bytes.
  set (h1 := (h ++ [n]) ++ [n]).
  assert (Hn1 : h1 !! length (h ++ [n]) = Some n) by apply lookup_last.
  erewrite bind_Ok; cycle 1.
  { rewrite computeKeyId_decrypt, (computeKeyId_run _ _ _ _ Hn1), Hp. reflexivity. }
  assert (Hk : (h1 ++ [p; p ++ n]) !! S (length h1) = Some (p ++ n)).
  { rewrite lookup_app_r by lia. by replace (S (length h1) - length h1) with 1 by lia. }
  erewrite bind_Ok; cycle 1.
  { unfold callToHex. erewrite bind_Ok by apply read_Ok, Hk. reflexivity. }
  by do 2 eexists.
Qed.

Lemma stored_record_recomputes_identifier_witness :
  ∃ keyId h',
    @DecryptPData.keyIdOfRecord SpecHex.utils "0xaabb" (Byte.to_N <$> [x01; x02]) [[xff]]
      = (Ok (keyId, @toHex SpecHex.utils [xaa; xbb; x01; x02]), h') ∧
    h' !! keyId = Some [xaa; xbb; x01; x02].
Proof.
  apply (@stored_record_recomputes_identifier SpecHex.utils
           [[x01; x02]] [[xff]] "0xaabb" 0 [x01; x02] [xaa; xbb; x01; x02]);
    reflexivity.
Defined.

Section ObjectId.
Import DownEncryptedKey.

(** X12.  The object id is the first non-empty one of the command line
    argument, the [OBJECT_ID] variable and the answer at the prompt: an
    empty argument or variable counts as absent.  The script goes on with
    it only when it starts with [0x]; with no id, or one of another form,
    it ends with exit code 1. *)
Theorem main_objectId_spec
  (argv2 envObjectId : option string) (userInput : string) (t : list Event) :
  ∃ ev,
    DecryptPData.main_objectId argv2 envObjectId userInput t
    = (match firstGiven [argv2; envObjectId; Some userInput] with
       | Some objectId =>
           if JsString.startsWith objectId "0x" then Return objectId else Exit 1
       | None => Exit 1
       end, t ++ ev).
Proof.
  unfold DecryptPData.main_objectId, firstGiven, DecryptPData.given.
  unfold mbind, IO_bind, emit, exit, mret, IO_ret.
  destruct argv2 as [a|], envObjectId as [e|].
  all: repeat (cbn -[JsString.startsWith];
               repeat match goal with
                      | H : String.eqb _ _ = _ |- _ => rewrite H
                      end;
               match goal with
               | |- context [String.eqb ?x ""] => destruct (String.eqb x "") eqn:?
               end).
  all: cbn -[JsString.startsWith].
  all: repeat match goal with
         | |- context [JsString.startsWith ?x "0x"] =>
             destruct (JsString.startsWith x "0x")
         end.
  all: rewrite <-?app_assoc; eexists; reflexivity.
Qed.

Lemma main_objectId_spec_witness :
  ∃ ev,
    DecryptPData.main_objectId (Some "") (Some "0x3c61") "0xffff" []
    = (match firstGiven [Some ""; Some "0x3c61"; Some "0xffff"] with
       | Some objectId =>
           if JsString.startsWith objectId "0x" then Return objectId else Exit 1
       | None => Exit 1
       end, [] ++ ev).
Proof. apply (main_objectId_spec (Some "") (Some "0x3c61") "0xffff" []). Defined.

End ObjectId.
